(** * Litla Sorpa voice client: the non-UI logic of [App.tsx]

  A shallow embedding of the event handlers of the React component [App]
  (connection life cycle, microphone tap, playback scheduler, display log,
  teardown) and the properties the specification states about them.

  JavaScript numbers are IEEE binary64 values, so they are modelled by
  Rocq's primitive floats; strings are sequences of UTF-16 code units;
  browser and SDK objects are handles, and every call made on them is
  recorded in an effect trace. *)

From Stdlib Require Import ZArith NArith List Bool Lia Floats Sorted String Ascii.
From Stdlib Require Uint63.
Import ListNotations.

(* A decimal literal denotes the nearest binary64 value, in JavaScript as here. *)
Set Warnings "-inexact-float".

(** ** JavaScript values *)

Module JS.

(** *** Numbers *)

Definition number := float.

(** [Math.max(a, b)]: NaN if either argument is NaN, and [+0] is larger
    than [-0]. *)
Definition Math_max (a b : number) : number :=
  match PrimFloat.compare a b with
  | FNotComparable => nan
  | FLt => b
  | FGt => a
  | FEq => if get_sign a then b else a
  end.

Definition Math_sqrt (a : number) : number := PrimFloat.sqrt a.

(** The Number value of an array length. *)
Definition of_length (n : nat) : number :=
  PrimFloat.of_uint63 (Uint63.of_Z (Z.of_nat n)).

(** *** Strings: sequences of UTF-16 code units *)

Definition jsstring := list N.

(** Source literals are written as Rocq strings (UTF-8 bytes) and turned
    into code units here; every character of [App.tsx]'s literals is in the
    Basic Multilingual Plane, so one code unit per character. *)
Fixpoint utf16_of_utf8 (bs : list N) : jsstring :=
  match bs with
  | [] => []
  | b0 :: r0 =>
      if (b0 <? 128)%N then b0 :: utf16_of_utf8 r0
      else match r0 with
           | [] => [b0]
           | b1 :: r1 =>
               if (b0 <? 224)%N
               then (N.lor (N.shiftl (N.land b0 31) 6) (N.land b1 63)) :: utf16_of_utf8 r1
               else match r1 with
                    | [] => [b0; b1]
                    | b2 :: r2 =>
                        (N.lor (N.shiftl (N.land b0 15) 12)
                           (N.lor (N.shiftl (N.land b1 63) 6) (N.land b2 63)))
                          :: utf16_of_utf8 r2
                    end
           end
  end.

Definition lit (s : string) : jsstring :=
  utf16_of_utf8 (List.map (fun b => N_of_ascii b) (list_ascii_of_string s)).

(** ECMAScript WhiteSpace and LineTerminator code points, the ones
    [String.prototype.trim] strips. *)
Definition isWhiteSpace (c : N) : bool :=
  ((9 <=? c) && (c <=? 13) || (c =? 32) || (c =? 160) || (c =? 5760)
   || (8192 <=? c) && (c <=? 8202) || (c =? 8232) || (c =? 8233)
   || (c =? 8239) || (c =? 8287) || (c =? 12288) || (c =? 65279))%N.

Fixpoint trimStart (s : jsstring) : jsstring :=
  match s with
  | [] => []
  | c :: r => if isWhiteSpace c then trimStart r else s
  end.

Definition trimEnd (s : jsstring) : jsstring := rev (trimStart (rev s)).

Definition trim (s : jsstring) : jsstring := trimEnd (trimStart s).

(** Truthiness of a string: the empty string is falsy. *)
Definition truthy (s : jsstring) : bool :=
  match s with [] => false | _ :: _ => true end.

(** *** Objects and [Set]

    An object is known by its identity, a handle.  A [Set] of objects keeps
    them in insertion order and compares them by identity. *)

Definition handle := positive.
Bind Scope positive_scope with handle.

Section ObjectSet.

Context {A : Type} (identity : A -> handle).

Definition Set_has (x : A) (s : list A) : bool :=
  existsb (fun y => Pos.eqb (identity x) (identity y)) s.

Definition Set_add (x : A) (s : list A) : list A :=
  if Set_has x s then s else s ++ [x].

Definition Set_delete (x : A) (s : list A) : list A :=
  filter (fun y => negb (Pos.eqb (identity x) (identity y))) s.

End ObjectSet.

(** *** Abrupt completion *)

Inductive Completion (A : Type) : Type :=
| Normal (a : A)
| Throw_TypeError.
Arguments Normal {A} a.
Arguments Throw_TypeError {A}.

End JS.
Import JS.


(** ** Browser audio objects

    Only what [App.tsx] touches: object identity (a handle) and the
    properties it reads. *)

Module WebAudio.

Record AudioContext : Set := mkAudioContext {
  contextId : handle;
  sampleRate : Z;
  destination : handle
}.

Record AudioBuffer : Set := mkAudioBuffer {
  duration : number;
  getChannelData : list number
}.

(** A source node and the buffer assigned to it ([source.buffer = ...]). *)
Record AudioBufferSourceNode : Set := mkAudioBufferSourceNode {
  node : handle;
  buffer : option AudioBuffer
}.

Definition MediaStreamSourceNode := handle.
Definition ScriptProcessorNode := handle.
Definition GainNode := handle.
Definition MediaStreamTrack := handle.

Record MediaStream : Set := mkMediaStream {
  getTracks : list MediaStreamTrack
}.

Definition Float32Array := list number.
Definition Uint8Array := list N.

End WebAudio.
Import WebAudio.

(** ** The vendor SDK's message shapes ([@google/genai])

    The SDK declares every property of these objects optional, which is why
    the handlers reach them through optional chaining. *)

Module GenAI.

Record Blob : Set := mkBlob {
  data : option jsstring;
  mimeType : option jsstring
}.

Record Part : Set := mkPart {
  inlineData : option Blob;
  text : option jsstring
}.

Record Content : Set := mkContent {
  parts : option (list Part);
  role : option jsstring
}.

Record LiveServerContent : Set := mkLiveServerContent {
  modelTurn : option Content;
  turnComplete : option bool;
  interrupted : option bool
}.

Record LiveServerMessage : Set := mkLiveServerMessage {
  serverContent : option LiveServerContent
}.

Definition Session := handle.

(** The argument of [session.sendRealtimeInput]. *)
Inductive RealtimeInput : Set :=
| media_input (media : Blob)
| content_input (content : Content).

End GenAI.
Import GenAI.

(** ** [utils/audio]

    [App.tsx] imports [createBlob], [decode] and [decodeAudioData] from
    [./utils/audio]; the handlers are stated over any implementation of that
    interface.  [decodeAudioData] is awaited by its caller: it stands here for
    the buffer its promise resolves to. *)

Class AudioUtils : Type := {
  createBlob : Float32Array -> Blob;
  decode : jsstring -> Uint8Array;
  decodeAudioData : Uint8Array -> AudioContext -> Z -> Z -> AudioBuffer
}.

(** ** The component's state *)

(** Modelled from the spec: the enum [ConnectionState] is declared in
    [./types], which [App.tsx] imports; the spec gives it four values,
    disconnected, connecting, connected and error, and [App.tsx] uses the
    members [DISCONNECTED], [CONNECTING], [CONNECTED] and [ERROR]. *)
Inductive ConnectionState : Set :=
| DISCONNECTED
| CONNECTING
| CONNECTED
| ERROR.

Definition ConnectionState_values : list ConnectionState :=
  [DISCONNECTED; CONNECTING; CONNECTED; ERROR].

Inductive LogType : Set := user | model | system.

Record LogMessage : Set := mkLogMessage {
  type : LogType;
  log_text : jsstring;
  timestamp : Z
}.

(** A file picked in the hidden [<input type="file">]. *)
Record File : Set := mkFile {
  file_type : jsstring;
  file_dataURL : jsstring
}.

(** Calls made on objects outside the component, in the order made. *)
Inductive Effect : Set :=
| console_error (what : jsstring)
| getUserMedia
| live_connect (model_name : jsstring)
| connect (node into : handle)
| track_stop (t : MediaStreamTrack)
| context_close (ctx : AudioContext)
| addEventListener_ended (source : AudioBufferSourceNode)
| source_start (source : AudioBufferSourceNode) (when : number)
| source_stop (source : AudioBufferSourceNode)
| sendRealtimeInput (session : Session) (input : RealtimeInput)
| readAsDataURL (file : File)
| file_input_click.

(** The [useState] cells and the [useRef] cells of [App], the effect trace,
    and the next unused object handle. *)
Record World : Type := mkWorld {
  connectionState : ConnectionState;
  logs : list LogMessage;
  volume : number;
  textInput : jsstring;
  inputAudioContextRef : option AudioContext;
  outputAudioContextRef : option AudioContext;
  mediaStreamRef : option MediaStream;
  scriptProcessorRef : option ScriptProcessorNode;
  outputNodeRef : option GainNode;
  nextStartTimeRef : number;
  sourcesRef : list AudioBufferSourceNode;
  sessionRef : option Session;
  fileInputRef : option jsstring;
  effects : list Effect;
  nextHandle : handle
}.

Definition MODEL_NAME : jsstring := lit "gemini-2.5-flash-native-audio-preview-12-2025".

(** The state on first render. *)
Definition initial : World :=
  {| connectionState := DISCONNECTED; logs := []; volume := 0%float; textInput := [];
     inputAudioContextRef := None; outputAudioContextRef := None;
     mediaStreamRef := None; scriptProcessorRef := None; outputNodeRef := None;
     nextStartTimeRef := 0%float; sourcesRef := []; sessionRef := None;
     fileInputRef := None; effects := []; nextHandle := 1%positive |}.

(** Assignment to one cell; the others keep their values. *)
Definition set_connectionState (x : ConnectionState) (w : World) : World :=
  mkWorld x (logs w) (volume w) (textInput w) (inputAudioContextRef w)
    (outputAudioContextRef w) (mediaStreamRef w) (scriptProcessorRef w)
    (outputNodeRef w) (nextStartTimeRef w) (sourcesRef w) (sessionRef w)
    (fileInputRef w) (effects w) (nextHandle w).
Definition set_logs (x : list LogMessage) (w : World) : World :=
  mkWorld (connectionState w) x (volume w) (textInput w) (inputAudioContextRef w)
    (outputAudioContextRef w) (mediaStreamRef w) (scriptProcessorRef w)
    (outputNodeRef w) (nextStartTimeRef w) (sourcesRef w) (sessionRef w)
    (fileInputRef w) (effects w) (nextHandle w).
Definition set_volume (x : number) (w : World) : World :=
  mkWorld (connectionState w) (logs w) x (textInput w) (inputAudioContextRef w)
    (outputAudioContextRef w) (mediaStreamRef w) (scriptProcessorRef w)
    (outputNodeRef w) (nextStartTimeRef w) (sourcesRef w) (sessionRef w)
    (fileInputRef w) (effects w) (nextHandle w).
Definition set_textInput (x : jsstring) (w : World) : World :=
  mkWorld (connectionState w) (logs w) (volume w) x (inputAudioContextRef w)
    (outputAudioContextRef w) (mediaStreamRef w) (scriptProcessorRef w)
    (outputNodeRef w) (nextStartTimeRef w) (sourcesRef w) (sessionRef w)
    (fileInputRef w) (effects w) (nextHandle w).
Definition set_inputAudioContextRef (x : option AudioContext) (w : World) : World :=
  mkWorld (connectionState w) (logs w) (volume w) (textInput w) x
    (outputAudioContextRef w) (mediaStreamRef w) (scriptProcessorRef w)
    (outputNodeRef w) (nextStartTimeRef w) (sourcesRef w) (sessionRef w)
    (fileInputRef w) (effects w) (nextHandle w).
Definition set_outputAudioContextRef (x : option AudioContext) (w : World) : World :=
  mkWorld (connectionState w) (logs w) (volume w) (textInput w) (inputAudioContextRef w)
    x (mediaStreamRef w) (scriptProcessorRef w) (outputNodeRef w) (nextStartTimeRef w)
    (sourcesRef w) (sessionRef w) (fileInputRef w) (effects w) (nextHandle w).
Definition set_mediaStreamRef (x : option MediaStream) (w : World) : World :=
  mkWorld (connectionState w) (logs w) (volume w) (textInput w) (inputAudioContextRef w)
    (outputAudioContextRef w) x (scriptProcessorRef w) (outputNodeRef w)
    (nextStartTimeRef w) (sourcesRef w) (sessionRef w) (fileInputRef w) (effects w)
    (nextHandle w).
Definition set_scriptProcessorRef (x : option ScriptProcessorNode) (w : World) : World :=
  mkWorld (connectionState w) (logs w) (volume w) (textInput w) (inputAudioContextRef w)
    (outputAudioContextRef w) (mediaStreamRef w) x (outputNodeRef w)
    (nextStartTimeRef w) (sourcesRef w) (sessionRef w) (fileInputRef w) (effects w)
    (nextHandle w).
Definition set_outputNodeRef (x : option GainNode) (w : World) : World :=
  mkWorld (connectionState w) (logs w) (volume w) (textInput w) (inputAudioContextRef w)
    (outputAudioContextRef w) (mediaStreamRef w) (scriptProcessorRef w) x
    (nextStartTimeRef w) (sourcesRef w) (sessionRef w) (fileInputRef w) (effects w)
    (nextHandle w).
Definition set_nextStartTimeRef (x : number) (w : World) : World :=
  mkWorld (connectionState w) (logs w) (volume w) (textInput w) (inputAudioContextRef w)
    (outputAudioContextRef w) (mediaStreamRef w) (scriptProcessorRef w)
    (outputNodeRef w) x (sourcesRef w) (sessionRef w) (fileInputRef w) (effects w)
    (nextHandle w).
Definition set_sourcesRef (x : list AudioBufferSourceNode) (w : World) : World :=
  mkWorld (connectionState w) (logs w) (volume w) (textInput w) (inputAudioContextRef w)
    (outputAudioContextRef w) (mediaStreamRef w) (scriptProcessorRef w)
    (outputNodeRef w) (nextStartTimeRef w) x (sessionRef w) (fileInputRef w) (effects w)
    (nextHandle w).
Definition set_sessionRef (x : option Session) (w : World) : World :=
  mkWorld (connectionState w) (logs w) (volume w) (textInput w) (inputAudioContextRef w)
    (outputAudioContextRef w) (mediaStreamRef w) (scriptProcessorRef w)
    (outputNodeRef w) (nextStartTimeRef w) (sourcesRef w) x (fileInputRef w) (effects w)
    (nextHandle w).
Definition set_fileInputRef (x : option jsstring) (w : World) : World :=
  mkWorld (connectionState w) (logs w) (volume w) (textInput w) (inputAudioContextRef w)
    (outputAudioContextRef w) (mediaStreamRef w) (scriptProcessorRef w)
    (outputNodeRef w) (nextStartTimeRef w) (sourcesRef w) (sessionRef w) x (effects w)
    (nextHandle w).
Definition set_effects (x : list Effect) (w : World) : World :=
  mkWorld (connectionState w) (logs w) (volume w) (textInput w) (inputAudioContextRef w)
    (outputAudioContextRef w) (mediaStreamRef w) (scriptProcessorRef w)
    (outputNodeRef w) (nextStartTimeRef w) (sourcesRef w) (sessionRef w)
    (fileInputRef w) x (nextHandle w).
Definition set_nextHandle (x : handle) (w : World) : World :=
  mkWorld (connectionState w) (logs w) (volume w) (textInput w) (inputAudioContextRef w)
    (outputAudioContextRef w) (mediaStreamRef w) (scriptProcessorRef w)
    (outputNodeRef w) (nextStartTimeRef w) (sourcesRef w) (sessionRef w)
    (fileInputRef w) (effects w) x.

(** ** Handlers as state transformers *)

Definition M (A : Type) : Type := World -> A * World.

Definition ret {A} (a : A) : M A := fun w => (a, w).

Definition bind {A B} (m : M A) (k : A -> M B) : M B :=
  fun w => let (a, w') := m w in k a w'.

Declare Scope js_scope.
Delimit Scope js_scope with js.
Notation "x <- m ;; k" := (bind m (fun x => k))
  (at level 61, m at next level, right associativity) : js_scope.
Notation "m ;; k" := (bind m (fun _ => k))
  (at level 61, right associativity) : js_scope.
Open Scope js_scope.

Definition gets {A} (f : World -> A) : M A := fun w => (f w, w).

Definition modify (f : World -> World) : M unit := fun w => (tt, f w).

(** The world after running a handler. *)
Definition exec {A} (m : M A) (w : World) : World := snd (m w).

Definition emit (e : Effect) : M unit :=
  modify (fun w => set_effects (effects w ++ [e]) w).

(** [new] / [create...]: a fresh object. *)
Definition fresh : M handle :=
  fun w => (nextHandle w, set_nextHandle (Pos.succ (nextHandle w)) w).

Fixpoint forEach {A} (xs : list A) (f : A -> M unit) : M unit :=
  match xs with
  | [] => ret tt
  | x :: r => f x ;; forEach r f
  end.

(** React state setters. *)
Definition setConnectionState (c : ConnectionState) : M unit :=
  modify (set_connectionState c).

Definition setLogs (f : list LogMessage -> list LogMessage) : M unit :=
  modify (fun w => set_logs (f (logs w)) w).

Definition setVolume (f : number -> number) : M unit :=
  modify (fun w => set_volume (f (volume w)) w).

Definition setTextInput (s : jsstring) : M unit := modify (set_textInput s).

Section Handlers.

Context {utils : AudioUtils}.

(** [addLog]; [now] is what [Date.now()] returns. *)
Definition addLog (now : Z) (type : LogType) (text : jsstring) : M unit :=
  setLogs (fun prev => prev ++ [ mkLogMessage type text now ]).

Definition cleanup : M unit :=
  (* Close session *)
  session <- gets sessionRef ;;
  match session with
  | Some _ => modify (set_sessionRef None)
  | None => ret tt
  end ;;
  (* Stop microphone *)
  stream <- gets mediaStreamRef ;;
  match stream with
  | Some s => forEach (getTracks s) (fun track => emit (track_stop track)) ;;
              modify (set_mediaStreamRef None)
  | None => ret tt
  end ;;
  (* Close contexts *)
  inputCtx <- gets inputAudioContextRef ;;
  match inputCtx with
  | Some c => emit (context_close c) ;; modify (set_inputAudioContextRef None)
  | None => ret tt
  end ;;
  outputCtx <- gets outputAudioContextRef ;;
  match outputCtx with
  | Some c => emit (context_close c) ;; modify (set_outputAudioContextRef None)
  | None => ret tt
  end ;;
  (* Stop playing sources *)
  sources <- gets sourcesRef ;;
  forEach sources (fun source => emit (source_stop source)) ;;
  modify (set_sourcesRef []) ;;
  modify (set_scriptProcessorRef None) ;;
  modify (set_outputNodeRef None) ;;
  modify (set_nextStartTimeRef 0%float) ;;
  setVolume (fun _ => 0%float) ;;
  setTextInput [].

(** *** [handleConnect]

    An [async] function: it runs up to [await getUserMedia], resumes with the
    stream up to [await sessionPromise], and resumes with the session; a
    throw or a rejection at any of these points enters its [catch] block. *)

Definition newAudioContext (rate : Z) : M AudioContext :=
  id <- fresh ;; dest <- fresh ;; ret (mkAudioContext id rate dest).

Definition handleConnect (now : Z) : M unit :=
  setConnectionState CONNECTING ;;
  addLog now system (lit "Frumstilli hljóðbúnað...") ;;
  (* 1. Initialize Audio Contexts *)
  inputCtx <- newAudioContext 16000 ;;
  outputCtx <- newAudioContext 24000 ;;
  modify (set_inputAudioContextRef (Some inputCtx)) ;;
  modify (set_outputAudioContextRef (Some outputCtx)) ;;
  outputNode <- fresh ;;
  emit (connect outputNode (destination outputCtx)) ;;
  modify (set_outputNodeRef (Some outputNode)) ;;
  (* 2. Get Microphone Stream *)
  emit getUserMedia.

Definition handleConnect_gotStream (now : Z) (stream : MediaStream) : M unit :=
  modify (set_mediaStreamRef (Some stream)) ;;
  addLog now system (lit "Tengist Gemini Live...") ;;
  (* 4. Connect to Live API *)
  emit (live_connect MODEL_NAME).

Definition handleConnect_gotSession (session : Session) : M unit :=
  modify (set_sessionRef (Some session)).

Definition handleConnect_catch (now : Z) : M unit :=
  emit (console_error (lit "Connection failed")) ;;
  addLog now system (lit "Tenging mistókst.") ;;
  setConnectionState ERROR ;;
  cleanup.

(** *** The session's callbacks *)

(** [inputCtx] and [stream] are the locals of the [handleConnect] call that
    created the callbacks. *)
Definition onopen (now : Z) (inputCtx : AudioContext) (stream : MediaStream) : M unit :=
  addLog now system (lit "Tenging komin! Byrjaðu að tala.") ;;
  setConnectionState CONNECTED ;;
  (* Start Audio Processing Pipeline *)
  source <- fresh ;;     (* inputCtx.createMediaStreamSource(stream) *)
  processor <- fresh ;;  (* inputCtx.createScriptProcessor(4096, 1, 1) *)
  modify (set_scriptProcessorRef (Some processor)) ;;
  emit (connect source processor) ;;
  emit (connect processor (destination inputCtx)).

(** The loop [for (let i = 0; i < inputData.length; i++) sum += inputData[i] * inputData[i]]. *)
Definition sum_of_squares (inputData : Float32Array) : number :=
  fold_left (fun sum i => (sum + nth i inputData nan * nth i inputData nan)%float)
            (seq 0 (List.length inputData)) 0%float.

Definition rms (inputData : Float32Array) : number :=
  Math_sqrt (sum_of_squares inputData / of_length (List.length inputData))%float.

(** [processor.onaudioprocess]; [session] is what [sessionPromise] resolves
    to, the promise being settled by the time the session has opened. *)
Definition onaudioprocess (session : Session) (inputData : Float32Array) : M unit :=
  (* Simple volume meter for visualizer *)
  let rms := rms inputData in
  setVolume (fun v => Math_max (rms * 5) (v * 0.9))%float ;; (* Smooth decay *)
  let pcmBlob := createBlob inputData in
  (* Send data when session is ready *)
  emit (sendRealtimeInput session (media_input pcmBlob)).

(** [message.serverContent?.modelTurn?.parts[0]?.inlineData?.data]: every
    link but [parts] is optional-chained, so a [modelTurn] without [parts]
    throws. *)
Definition base64Audio_of (message : LiveServerMessage) : Completion (option jsstring) :=
  match serverContent message with
  | None => Normal None
  | Some sc =>
      match modelTurn sc with
      | None => Normal None
      | Some turn =>
          match parts turn with
          | None => Throw_TypeError
          | Some ps =>
              match nth_error ps 0 with
              | None => Normal None
              | Some part =>
                  match inlineData part with
                  | None => Normal None
                  | Some blob => Normal (data blob)
                  end
              end
          end
      end
  end.

(** [message.serverContent?.turnComplete] and [...?.interrupted] as conditions. *)
Definition flag (f : LiveServerContent -> option bool) (message : LiveServerMessage) : bool :=
  match serverContent message with
  | Some sc => match f sc with Some b => b | None => false end
  | None => false
  end.

(** *** [onmessage]

    An [async] function.  For a message that carries audio, with the output
    context and the output node in place, it syncs the start time and then
    awaits [decodeAudioData] (line 181); it resumes with the decoded buffer
    once the promise has resolved, and other handlers run in between.  For
    any other message it does not await, and runs to its end at once. *)

(** [ctx.createBufferSource()] *)
Definition createBufferSource : M AudioBufferSourceNode :=
  id <- fresh ;; ret (mkAudioBufferSourceNode id None).

(** Handle Turn Complete (Logging) *)
Definition onmessage_turnComplete (now : Z) (message : LiveServerMessage) : M unit :=
  if flag turnComplete message then
    addLog now system (lit "Svari lokið.") ;;
    setVolume (fun _ => 0%float)
  else ret tt.

(** Handle Interruption *)
Definition onmessage_interrupted (now : Z) (message : LiveServerMessage) : M unit :=
  if flag interrupted message then
    addLog now system (lit "Gripið fram í.") ;;
    sources <- gets sourcesRef ;;
    forEach sources (fun s => emit (source_stop s)) ;;
    modify (set_sourcesRef []) ;;
    modify (set_nextStartTimeRef 0%float)
  else ret tt.

(** The handler after its audio block: lines 204 to 216. *)
Definition onmessage_signals (now : Z) (message : LiveServerMessage) : M unit :=
  onmessage_turnComplete now message ;;
  onmessage_interrupted now message.

(** The handler from its first line to its [await], or to its end when it
    does not await; [currentTime] is [ctx.currentTime]. *)
Definition onmessage (now : Z) (currentTime : number) (message : LiveServerMessage) : M unit :=
  match base64Audio_of message with
  | Throw_TypeError => ret tt
  | Normal base64Audio =>
      ctxRef <- gets outputAudioContextRef ;;
      nodeRef <- gets outputNodeRef ;;
      match base64Audio, ctxRef, nodeRef with
      | Some b64, Some ctx, Some _ =>
          if truthy b64 then
            (* Sync start time *)
            modify (fun w => set_nextStartTimeRef (Math_max (nextStartTimeRef w) currentTime) w)
            (* await decodeAudioData(decode(base64Audio), ctx, 24000, 1) *)
          else onmessage_signals now message
      | _, _, _ => onmessage_signals now message
      end
  end.

(** What [source.connect(outputNodeRef.current)] on line 190 connects to.
    The call throws on a null node, and on a node of another context than the
    source's; the node the component holds was created by the output context
    it holds (lines 87 to 92 set both, [cleanup] clears both). *)
Definition connect_target (ctx : AudioContext) : M (option GainNode) :=
  held <- gets outputAudioContextRef ;;
  nodeRef <- gets outputNodeRef ;;
  ret match held, nodeRef with
      | Some c, Some outputNode =>
          if (contextId c =? contextId ctx)%positive then Some outputNode else None
      | _, _ => None
      end.

(** Handle Audio Output from the decoded buffer on, lines 188 to 201; [ctx]
    is the handler's local, read before the [await].  The result tells
    whether the block ran to its end ([true]) or [connect] threw. *)
Definition onmessage_play (base64Audio : jsstring) (ctx : AudioContext) : M bool :=
  let audioBuffer := decodeAudioData (decode base64Audio) ctx 24000 1 in
  source <- createBufferSource ;;
  let source := mkAudioBufferSourceNode (node source) (Some audioBuffer) in (* source.buffer *)
  target <- connect_target ctx ;;
  match target with
  | None => ret false
  | Some outputNode =>
      emit (connect (node source) outputNode) ;;
      emit (addEventListener_ended source) ;;
      start <- gets nextStartTimeRef ;;
      emit (source_start source start) ;;
      modify (fun w => set_nextStartTimeRef (nextStartTimeRef w + duration audioBuffer)%float w) ;;
      modify (fun w => set_sourcesRef (Set_add node source (sourcesRef w)) w) ;;
      (* Visualizer feedback for output *)
      setVolume (fun _ => 0.5%float) ;;
      ret true
  end.

(** The handler resumed after its [await]; [message] and [ctx] are its
    locals.  Only a message that carries audio has awaited. *)
Definition onmessage_decoded (now : Z) (message : LiveServerMessage) (ctx : AudioContext) :
    M unit :=
  match base64Audio_of message with
  | Normal (Some b64) =>
      if truthy b64 then
        played <- onmessage_play b64 ctx ;;
        if played then onmessage_signals now message else ret tt
      else ret tt
  | _ => ret tt
  end.

(** The ['ended'] listener of a started source. *)
Definition onended (source : AudioBufferSourceNode) : M unit :=
  modify (fun w => set_sourcesRef (Set_delete node source (sourcesRef w)) w).

Definition onclose (now : Z) : M unit :=
  addLog now system (lit "Tengingu lokað.") ;;
  setConnectionState DISCONNECTED ;;
  cleanup.

Definition onerror (now : Z) (err : jsstring) : M unit :=
  emit (console_error err) ;;
  addLog now system (lit "Villa kom upp. Skoðaðu console.") ;;
  setConnectionState ERROR ;;
  cleanup.

(** *** User actions *)

Definition handleDisconnect (now : Z) : M unit :=
  cleanup ;;
  setConnectionState DISCONNECTED ;;
  addLog now system (lit "Notandi endaði setu.").

(** [result.split(',')[1]] *)
Fixpoint until_comma (s : jsstring) : jsstring :=
  match s with
  | [] => []
  | c :: r => if (c =? 44)%N then [] else c :: until_comma r
  end.

Fixpoint split_comma_1 (s : jsstring) : option jsstring :=
  match s with
  | [] => None
  | c :: r => if (c =? 44)%N then Some (until_comma r) else split_comma_1 r
  end.

Definition handleImageUpload (now : Z) (file : option File) : M unit :=
  session <- gets sessionRef ;;
  match file, session with
  | Some f, Some _ =>
      addLog now system (lit "Sendi mynd...") ;;
      emit (readAsDataURL f)
  | _, _ => ret tt
  end.

(** [reader.onload]; calling [sendRealtimeInput] on a null [sessionRef.current]
    throws and ends the handler. *)
Definition reader_onload (now : Z) (file : File) : M unit :=
  let base64Data := split_comma_1 (file_dataURL file) in
  session <- gets sessionRef ;;
  match session with
  | None => ret tt
  | Some s =>
      (* Send image to session *)
      emit (sendRealtimeInput s (media_input (mkBlob base64Data (Some (file_type file))))) ;;
      addLog now user (lit "Sendi mynd til greiningar") ;;
      (* Reset input *)
      input <- gets fileInputRef ;;
      match input with
      | Some _ => modify (set_fileInputRef (Some []))
      | None => ret tt
      end
  end.

Definition handleSendText (now : Z) : M unit :=
  textInput <- gets textInput ;;
  session <- gets sessionRef ;;
  match truthy (trim textInput), session with
  | true, Some s =>
      let text := trim textInput in
      addLog now user text ;;
      emit (sendRealtimeInput s
              (content_input (mkContent (Some [mkPart None (Some text)]) (Some (lit "user"))))) ;;
      setTextInput []
  | _, _ => ret tt
  end.

Definition handleKeyDown (now : Z) (key : jsstring) : M unit :=
  if list_eq_dec N.eq_dec key (lit "Enter") then handleSendText now else ret tt.

Definition triggerFileUpload : M unit :=
  input <- gets fileInputRef ;;
  match input with
  | Some _ => emit file_input_click
  | None => ret tt
  end.

(** The text field's [onChange]. *)
Definition onChange_textInput (value : jsstring) : M unit := setTextInput value.

(** React points [fileInputRef] at the hidden file input when it mounts it
    (the value it holds is the chosen file's path) and back at null when it
    unmounts it. *)
Definition attach_fileInputRef (input : option jsstring) : M unit :=
  modify (set_fileInputRef input).

End Handlers.

(** ** The component as an event-driven system *)

(** What can happen to the mounted component.  Each event carries what its
    handler reads from outside: the wall clock ([Date.now()]), the audio
    clock ([ctx.currentTime]), and the values its closure or its argument
    holds.  An [async] handler is one event up to its first [await] and one
    event for each resumption; events of other handlers may come in between. *)
Inductive Event : Type :=
| click_connect (now : Z)
| getUserMedia_resolved (now : Z) (stream : MediaStream)
| connect_resolved (session : Session)
| connect_failed (now : Z)
| session_onopen (now : Z) (inputCtx : AudioContext) (stream : MediaStream)
| session_onmessage (now : Z) (currentTime : number) (message : LiveServerMessage)
| decodeAudioData_resolved (now : Z) (message : LiveServerMessage) (ctx : AudioContext)
| session_onclose (now : Z)
| session_onerror (now : Z) (err : jsstring)
| audioprocess (session : Session) (inputData : Float32Array)
| source_ended (source : AudioBufferSourceNode)
| click_disconnect (now : Z)
| file_chosen (now : Z) (file : option File)
| file_loaded (now : Z) (file : File)
| click_send (now : Z)
| keydown (now : Z) (key : jsstring)
| click_upload
| text_changed (value : jsstring)
| ref_attached (input : option jsstring).

Section System.

Context {utils : AudioUtils}.

Definition handler (e : Event) : M unit :=
  match e with
  | click_connect now => handleConnect now
  | getUserMedia_resolved now stream => handleConnect_gotStream now stream
  | connect_resolved session => handleConnect_gotSession session
  | connect_failed now => handleConnect_catch now
  | session_onopen now inputCtx stream => onopen now inputCtx stream
  | session_onmessage now currentTime message => onmessage now currentTime message
  | decodeAudioData_resolved now message ctx => onmessage_decoded now message ctx
  | session_onclose now => onclose now
  | session_onerror now err => onerror now err
  | audioprocess session inputData => onaudioprocess session inputData
  | source_ended source => onended source
  | click_disconnect now => handleDisconnect now
  | file_chosen now file => handleImageUpload now file
  | file_loaded now file => reader_onload now file
  | click_send now => handleSendText now
  | keydown now key => handleKeyDown now key
  | click_upload => triggerFileUpload
  | text_changed value => onChange_textInput value
  | ref_attached input => attach_fileInputRef input
  end.

Definition step (w : World) (e : Event) : World := exec (handler e) w.

Definition run (trace : list Event) (w : World) : World := fold_left step trace w.

End System.

(** The wall-clock reading an event's handler takes, if it takes one. *)
Definition clock_of (e : Event) : option Z :=
  match e with
  | click_connect now | getUserMedia_resolved now _ | connect_failed now
  | session_onopen now _ _ | session_onmessage now _ _ | decodeAudioData_resolved now _ _
  | session_onclose now | session_onerror now _ | click_disconnect now | file_chosen now _
  | file_loaded now _ | click_send now | keydown now _ => Some now
  | connect_resolved _ | audioprocess _ _ | source_ended _ | click_upload
  | text_changed _ | ref_attached _ => None
  end.

Fixpoint clock_readings (trace : list Event) : list Z :=
  match trace with
  | [] => []
  | e :: r => match clock_of e with
              | Some t => t :: clock_readings r
              | None => clock_readings r
              end
  end.

(** The session's life-cycle callbacks. *)
Definition is_lifecycle_callback (e : Event) : bool :=
  match e with
  | session_onopen _ _ _ | session_onclose _ | session_onerror _ _ => true
  | _ => false
  end.

(** ** Descriptions the handlers are compared with *)

(** The root mean square of a frame, as the specification words it: the
    square root of the mean of the squared samples.  The sum runs from the
    first sample to the last. *)
Definition mean (xs : list number) : number :=
  (fold_left PrimFloat.add xs 0 / of_length (List.length xs))%float.

Definition rms_spec (frame : Float32Array) : number :=
  Math_sqrt (mean (List.map (fun x => x * x)%float frame)).

(** What a teardown does to the outside: stop the tracks, close the two
    contexts, stop the sources in flight. *)
Definition teardown_effects (w : World) : list Effect :=
  match mediaStreamRef w with
  | Some s => List.map track_stop (getTracks s)
  | None => []
  end
  ++ match inputAudioContextRef w with Some c => [context_close c] | None => [] end
  ++ match outputAudioContextRef w with Some c => [context_close c] | None => [] end
  ++ List.map source_stop (sourcesRef w).

(** The state after a teardown: every reference null, the set empty, the
    scalars zero, the text field empty. *)
Definition torn_down (w : World) : World :=
  {| connectionState := connectionState w; logs := logs w; volume := 0%float; textInput := [];
     inputAudioContextRef := None; outputAudioContextRef := None;
     mediaStreamRef := None; scriptProcessorRef := None; outputNodeRef := None;
     nextStartTimeRef := 0%float; sourcesRef := []; sessionRef := None;
     fileInputRef := fileInputRef w;
     effects := effects w ++ teardown_effects w; nextHandle := nextHandle w |}.

Definition is_teardown_effect (e : Effect) : bool :=
  match e with
  | track_stop _ | context_close _ | source_stop _ => true
  | _ => false
  end.

(** Nothing left to tear down. *)
Definition is_clean (w : World) : Prop :=
  sessionRef w = None /\ mediaStreamRef w = None /\
  inputAudioContextRef w = None /\ outputAudioContextRef w = None /\
  scriptProcessorRef w = None /\ outputNodeRef w = None /\
  sourcesRef w = [] /\ nextStartTimeRef w = 0%float /\
  volume w = 0%float /\ textInput w = [].

(** The [start] calls of a trace: which source, when. *)
Fixpoint scheduled (es : list Effect) : list (AudioBufferSourceNode * number) :=
  match es with
  | [] => []
  | source_start s t :: r => (s, t) :: scheduled r
  | _ :: r => scheduled r
  end.

(** When a source started at [start] finishes playing its buffer. *)
Definition end_time (s : AudioBufferSourceNode) (start : number) : number :=
  match buffer s with
  | Some b => (start + duration b)%float
  | None => start
  end.

(** The playback a trace schedules: start and end of each buffer, in the
    order scheduled. *)
Definition playback (es : list Effect) : list (number * number) :=
  List.map (fun st => (snd st, end_time (fst st) (snd st))) (scheduled es).

(** Gap-free sequential playback: each buffer starts when the one before
    it ends. *)
Fixpoint gap_free (p : list (number * number)) : Prop :=
  match p with
  | [] => True
  | (_, end1) :: r =>
      match r with
      | [] => True
      | (start2, _) :: _ => start2 = end1 /\ gap_free r
      end
  end.

(** The source a message's audio is played from: fresh, holding the decoded
    buffer. *)
Definition source_for {utils : AudioUtils} (base64 : jsstring) (ctx : AudioContext) (w : World) :
    AudioBufferSourceNode :=
  mkAudioBufferSourceNode (nextHandle w) (Some (decodeAudioData (decode base64) ctx 24000 1)).

(** The connection state an event leaves behind: the user's connect and
    disconnect actions and a failed connection attempt assign it, as do the
    session's life-cycle callbacks; nothing else does. *)
Definition connection_after (e : Event) (before : ConnectionState) : ConnectionState :=
  match e with
  | click_connect _ => CONNECTING
  | connect_failed _ => ERROR
  | session_onopen _ _ _ => CONNECTED
  | session_onclose _ => DISCONNECTED
  | session_onerror _ _ => ERROR
  | click_disconnect _ => DISCONNECTED
  | _ => before
  end.

(** ** What a handler leaves alone

    [respects R m]: running [m] takes every state to one related to it by
    [R].  For a reflexive and transitive [R] this is preserved by sequencing,
    so it is enough to look at the assignments a handler makes. *)

Definition respects (R : World -> World -> Prop) {A} (m : M A) : Prop :=
  forall w, R w (snd (m w)).

(** The connection state is the same before and after. *)
Definition same_connection (w w' : World) : Prop :=
  connectionState w' = connectionState w.

(** The log has grown at its end, by entries stamped with the clock reading
    [t] (by nothing, if there is no reading). *)
Definition log_extended (t : option Z) (w w' : World) : Prop :=
  exists new, logs w' = logs w ++ new /\ Forall (fun m => t = Some (timestamp m)) new.


(** The paths that end a session: the catch block of [handleConnect], the
    session's [onclose] and [onerror], and [handleDisconnect]. *)
Definition is_teardown_event (e : Event) : bool :=
  match e with
  | connect_failed _ | session_onclose _ | session_onerror _ _ | click_disconnect _ => true
  | _ => false
  end.

(** What such a path writes to the console before it tears down. *)
Definition teardown_report (e : Event) : list Effect :=
  match e with
  | connect_failed _ => [console_error (lit "Connection failed")]
  | session_onerror _ err => [console_error err]
  | _ => []
  end.

(** The three references of the playback side: the two audio contexts and
    the output node. *)
Definition audio_refs (w : World) : option AudioContext * option AudioContext * option GainNode :=
  (inputAudioContextRef w, outputAudioContextRef w, outputNodeRef w).

Definition same_audio_refs (w w' : World) : Prop := audio_refs w' = audio_refs w.

(** They are all set or all null. *)
Definition refs_paired (w : World) : Prop :=
  match audio_refs w with
  | (Some _, Some _, Some _) | (None, None, None) => True
  | _ => False
  end.

(** A list obtained from another by dropping elements. *)
Definition dropped_from {A} (l' l : list A) : Prop := exists keep, l' = filter keep l.

(** The sources in flight are distinct objects, created by this component,
    each holding a buffer and each started. *)
Definition sources_wf (w : World) : Prop :=
  NoDup (List.map node (sourcesRef w)) /\
  forall s, In s (sourcesRef w) ->
    (node s < nextHandle w)%positive /\
    buffer s <> None /\
    exists t, In (source_start s t) (effects w).

(** What every handler but the resumed [onmessage] does to the sources in
    flight: it may drop some, adds none, and retracts no call already made. *)
Definition sources_shrink (w w' : World) : Prop :=
  (nextHandle w <= nextHandle w')%positive /\
  (exists new, effects w' = effects w ++ new) /\
  dropped_from (sourcesRef w') (sourcesRef w).

(** The events through which the user speaks to the model in writing: a
    text sent by click or by the Enter key, and a picked image once read. *)
Definition is_user_input (e : Event) : bool :=
  match e with
  | click_send _ | keydown _ _ | file_loaded _ _ => true
  | _ => false
  end.

(** The log has grown at its end, by entries that satisfy [P]. *)
Definition log_grows (P : LogMessage -> Prop) (w w' : World) : Prop :=
  exists new, logs w' = logs w ++ new /\ Forall P new.

(** The entries an event may add: system entries, and user entries if the
    event is a user input. *)
Definition entry_of (e : Event) (m : LogMessage) : Prop :=
  type m = system \/ (type m = user /\ is_user_input e = true).

(** Every code unit is white space. *)
Definition blank (s : jsstring) : Prop := Forall (fun c => isWhiteSpace c = true) s.

(** The text message [handleSendText] sends. *)
Definition text_message (session : Session) (text : jsstring) : Effect :=
  sendRealtimeInput session
    (content_input (mkContent (Some [mkPart None (Some text)]) (Some (lit "user")))).

(** Which event may make which call on the outside. *)
Definition effect_allowed (e : Event) (x : Effect) : bool :=
  match x, e with
  | getUserMedia, click_connect _ => true
  | connect _ _,
    (click_connect _ | session_onopen _ _ _ | decodeAudioData_resolved _ _ _) => true
  | live_connect _, getUserMedia_resolved _ _ => true
  | console_error _, (connect_failed _ | session_onerror _ _) => true
  | (track_stop _ | context_close _),
    (connect_failed _ | session_onclose _ | session_onerror _ _ | click_disconnect _) => true
  | source_stop _,
    (connect_failed _ | session_onclose _ | session_onerror _ _ | click_disconnect _
     | session_onmessage _ _ _ | decodeAudioData_resolved _ _ _) => true
  | (addEventListener_ended _ | source_start _ _), decodeAudioData_resolved _ _ _ => true
  | sendRealtimeInput _ (media_input _), (audioprocess _ _ | file_loaded _ _) => true
  | sendRealtimeInput _ (content_input _), (click_send _ | keydown _ _) => true
  | readAsDataURL _, file_chosen _ _ => true
  | file_input_click, click_upload => true
  | _, _ => false
  end.

(** The trace has grown at its end, by calls that satisfy [P]. *)
Definition effects_grow (P : Effect -> Prop) (w w' : World) : Prop :=
  exists new, effects w' = effects w ++ new /\ Forall P new.

(** The audio clock reading a received message folds into the next start
    time, in a component that holds an output context and an output node: a
    message that carries data does so. *)
Definition arrival (e : Event) : option number :=
  match e with
  | session_onmessage _ currentTime message =>
      match base64Audio_of message with
      | Normal (Some b64) => if truthy b64 then Some currentTime else None
      | _ => None
      end
  | _ => None
  end.

Fixpoint arrivals (trace : list Event) : list number :=
  match trace with
  | [] => []
  | e :: r => match arrival e with
              | Some t => t :: arrivals r
              | None => arrivals r
              end
  end.

(** The events that neither start a buffer, nor interrupt, nor begin or end
    a connection: all but a completed decode, a message flagged interrupted,
    a click on connect and the teardown paths. *)
Definition is_quiet (e : Event) : bool :=
  match e with
  | decodeAudioData_resolved _ _ _ | click_connect _ => false
  | session_onmessage _ _ message => negb (flag interrupted message)
  | _ => negb (is_teardown_event e)
  end.

(** The playback side is as it was: same output context and node, same next
    start time, same buffers started. *)
Definition same_playback (w w' : World) : Prop :=
  outputAudioContextRef w' = outputAudioContextRef w /\
  outputNodeRef w' = outputNodeRef w /\
  nextStartTimeRef w' = nextStartTimeRef w /\
  scheduled (effects w') = scheduled (effects w).

(** ** Concrete inputs

    A stand-in for [./utils/audio], used only to run the handlers on
    concrete inputs: one sample per byte in both directions.  The theorems
    below hold for every implementation. *)

Definition of_integer (z : Z) : number := PrimFloat.of_uint63 (Uint63.of_Z z).

Definition sample_utils : AudioUtils :=
  {| createBlob := fun frame =>
       mkBlob (Some (List.map (fun x => if (x <? 0)%float then 45%N else 43%N) frame))
              (Some (lit "audio/pcm;rate=16000"));
     decode := fun base64 => base64;
     decodeAudioData := fun bytes ctx rate channels =>
       mkAudioBuffer (of_length (List.length bytes) / of_integer (rate * channels))%float
                     (List.map (fun b => of_integer (Z.of_N b)) bytes) |}.

(** A server message carrying one chunk of audio. *)
Definition audio_message (base64 : jsstring) : LiveServerMessage :=
  mkLiveServerMessage
    (Some (mkLiveServerContent
       (Some (mkContent
          (Some [mkPart (Some (mkBlob (Some base64) (Some (lit "audio/pcm;rate=24000")))) None])
          (Some (lit "model"))))
       None None)).


(** [{ serverContent: { modelTurn: {}, interrupted: true } }]: an
    interruption whose model turn holds no parts. *)
Definition bare_turn_interrupted_message : LiveServerMessage :=
  mkLiveServerMessage (Some (mkLiveServerContent (Some (mkContent None None)) None (Some true))).

(** One second and half a second of audio for [sample_utils] at 24 kHz. *)
Definition one_second : jsstring := repeat 65%N (Z.to_nat 24000).
Definition half_second : jsstring := repeat 65%N (Z.to_nat 12000).

Definition microphone : MediaStream := mkMediaStream [100%positive].

(** The component once the user has connected and the session has opened. *)
Definition connected : World :=
  run (utils := sample_utils)
    [click_connect 1000;
     getUserMedia_resolved 1010 microphone;
     session_onopen 1020 (mkAudioContext 1%positive 16000 2%positive) microphone;
     connect_resolved 200%positive]
    initial.

(** The output context and the output node [connected] holds. *)
Definition output_context : AudioContext := mkAudioContext 3%positive 24000 4%positive.
Definition output_node : GainNode := 5%positive.

(** Audio chunks: the first of a reply, one that arrives while it plays, and
    one that arrives after it has finished. *)
Definition first_chunk : Event := session_onmessage 2000 0%float (audio_message one_second).
Definition prompt_chunk : Event := session_onmessage 2500 0.5%float (audio_message half_second).
Definition late_chunk : Event := session_onmessage 7000 5%float (audio_message half_second).

(** Their decoding completes ten milliseconds later. *)
Definition first_decoded : Event :=
  decodeAudioData_resolved 2010 (audio_message one_second) output_context.
Definition prompt_decoded : Event :=
  decodeAudioData_resolved 2510 (audio_message half_second) output_context.
Definition late_decoded : Event :=
  decodeAudioData_resolved 7010 (audio_message half_second) output_context.

(** The component while a reply plays: two buffers in flight, the second
    queued behind the first. *)
Definition playing : World :=
  run (utils := sample_utils) [first_chunk; first_decoded; prompt_chunk; prompt_decoded] connected.

(** A full frame of the script processor, every sample at one half. *)
Definition steady_frame : Float32Array := repeat 0.5%float 4096.

(** The user has typed a question, with blanks around it. *)
Definition typed : World := set_textInput (lit "  Hvert fer gler? ") connected.

(** A whole session: connect, two chunks of a reply, each decoded and
    started, the end of the turn, disconnect. *)
Definition turn_complete_message : LiveServerMessage :=
  mkLiveServerMessage (Some (mkLiveServerContent None (Some true) None)).

Definition whole_session : list Event :=
  [click_connect 1000;
   getUserMedia_resolved 1010 microphone;
   session_onopen 1020 (mkAudioContext 1 16000 2) microphone;
   connect_resolved 200%positive;
   first_chunk; first_decoded; prompt_chunk; prompt_decoded;
   session_onmessage 3000 1.5%float turn_complete_message;
   click_disconnect 9000].

(** A picked image, as the file reader hands it over. *)
Definition picked_image : File :=
  mkFile (lit "image/png") (lit "data:image/png;base64,iVBORw0KGgo=").

(** The events that take the component from [initial] to [connected]. *)
Definition connecting : list Event :=
  [click_connect 1000;
   getUserMedia_resolved 1010 microphone;
   session_onopen 1020 (mkAudioContext 1 16000 2) microphone;
   connect_resolved 200%positive].

(** ** Facts about the JavaScript operations *)

Lemma SFcompare_antisym (x y : spec_float) :
  SFcompare y x = option_map CompOpp (SFcompare x y).
Proof.
  destruct x as [s1| s1| |s1 m1 e1], y as [s2| s2| |s2 m2 e2]; simpl; try reflexivity;
    try (destruct s1; reflexivity); try (destruct s2; reflexivity);
    try (destruct s1, s2; reflexivity).
  change (PosDef.Pos.compare_cont Eq m2 m1) with (Pos.compare m2 m1).
  change (PosDef.Pos.compare_cont Eq m1 m2) with (Pos.compare m1 m2).
  rewrite (Z.compare_antisym e1 e2), (Pos.compare_antisym m1 m2).
  destruct s1, s2; simpl; try reflexivity;
    destruct (e1 ?= e2)%Z; simpl; try reflexivity;
    destruct (m1 ?= m2)%positive; reflexivity.
Qed.



Lemma compare_antisym (a b : float) :
  PrimFloat.compare b a =
  match PrimFloat.compare a b with
  | FEq => FEq | FLt => FGt | FGt => FLt | FNotComparable => FNotComparable
  end.
Proof.
  rewrite !FloatAxioms.compare_spec, (SFcompare_antisym (Prim2SF a) (Prim2SF b)).
  destruct (SFcompare (Prim2SF a) (Prim2SF b)) as [[]|]; reflexivity.
Qed.


Lemma truthy_nonempty (s : jsstring) : truthy s = true <-> s <> [].
Proof. destruct s; simpl; split; congruence. Qed.

(** ** Facts about the handlers *)

Lemma forEach_emit {A} (f : A -> Effect) (xs : list A) (w : World) :
  forEach xs (fun x => emit (f x)) w = (tt, set_effects (effects w ++ List.map f xs) w).
Proof.
  revert w. induction xs as [|x r IH]; intros w.
  - destruct w; simpl. unfold ret, set_effects; simpl. now rewrite app_nil_r.
  - simpl. unfold bind, emit, modify. rewrite IH. destruct w; simpl.
    unfold set_effects; simpl. now rewrite <- app_assoc.
Qed.

Lemma emit_spec (e : Effect) (w : World) :
  emit e w = (tt, set_effects (effects w ++ [e]) w).
Proof. reflexivity. Qed.

Lemma exec_seq {A B} (m : M A) (k : M B) (w : World) :
  exec (bind m (fun _ => k)) w = exec k (exec m w).
Proof. unfold exec, bind. destruct (m w). reflexivity. Qed.

(** Unfolding the monad and the record operations, leaving [forEach] and
    [emit] to their lemmas. *)
Ltac unfold_handler :=
  cbv beta iota zeta delta
    [exec bind gets ret modify fresh snd fst
     setConnectionState setLogs setVolume setTextInput
     set_connectionState set_logs set_volume set_textInput
     set_inputAudioContextRef set_outputAudioContextRef set_mediaStreamRef
     set_scriptProcessorRef set_outputNodeRef set_nextStartTimeRef
     set_sourcesRef set_sessionRef set_fileInputRef set_effects set_nextHandle
     connectionState logs volume textInput inputAudioContextRef
     outputAudioContextRef mediaStreamRef scriptProcessorRef outputNodeRef
     nextStartTimeRef sourcesRef sessionRef fileInputRef effects nextHandle
     getTracks].

Ltac step_handler := repeat (unfold_handler; rewrite ?forEach_emit, ?emit_spec).

Section HandlerFacts.

Context {utils : AudioUtils}.

(** [cleanup] in closed form. *)
Lemma cleanup_spec (w : World) : exec cleanup w = torn_down w.
Proof.
  destruct w as [cs lg vol ti ic oc ms sp on nst src ses fi eff nh].
  unfold cleanup, torn_down, teardown_effects.
  destruct ses, ms as [[tracks]|], ic, oc; step_handler;
    rewrite <- ?app_assoc, ?app_nil_r; reflexivity.
Qed.

End HandlerFacts.

(** ** Teardown *)

Section Teardown.

Context {utils : AudioUtils}.

Lemma teardown_effects_torn_down (w : World) : teardown_effects (torn_down w) = [].
Proof. reflexivity. Qed.

Lemma teardown_effects_are_teardown (w : World) :
  Forall (fun e => is_teardown_effect e = true) (teardown_effects w).
Proof.
  unfold teardown_effects. rewrite !Forall_app. repeat split.
  - destruct (mediaStreamRef w); [|constructor].
    apply Forall_forall. intros e He. apply in_map_iff in He. now destruct He as (t & <- & _).
  - destruct (inputAudioContextRef w); repeat constructor.
  - destruct (outputAudioContextRef w); repeat constructor.
  - apply Forall_forall. intros e He. apply in_map_iff in He. now destruct He as (t & <- & _).
Qed.

Lemma onerror_spec (now : Z) (err : jsstring) (w : World) :
  exec (onerror now err) w =
  torn_down
    (set_connectionState ERROR
       (set_logs (logs w ++ [mkLogMessage system (lit "Villa kom upp. Skoðaðu console.") now])
          (set_effects (effects w ++ [console_error err]) w))).
Proof.
  rewrite <- cleanup_spec. reflexivity.
Qed.

(** C4. When the session's error callback fires, the connection state
    becomes ERROR and everything is torn down: the session reference, the
    media stream, both audio contexts, the script processor and the output
    node are null, every source in flight has been stopped and the set is
    empty, and the next start time and the volume are zero.  Besides logging
    the error, the callback does nothing to the outside but tear down: it
    stops and closes, and starts nothing again. *)
Theorem C4_onerror_tears_everything_down (now : Z) (err : jsstring) (w : World) :
  let w' := exec (onerror now err) w in
  connectionState w' = ERROR /\
  sessionRef w' = None /\ mediaStreamRef w' = None /\
  inputAudioContextRef w' = None /\ outputAudioContextRef w' = None /\
  scriptProcessorRef w' = None /\ outputNodeRef w' = None /\
  sourcesRef w' = [] /\
  (forall s, In s (sourcesRef w) -> In (source_stop s) (teardown_effects w)) /\
  nextStartTimeRef w' = 0%float /\ volume w' = 0%float /\
  effects w' = effects w ++ console_error err :: teardown_effects w /\
  Forall (fun e => is_teardown_effect e = true) (teardown_effects w).
Proof.
  intros w'. subst w'. rewrite onerror_spec.
  repeat split; try reflexivity.
  - intros s Hs. unfold teardown_effects.
    repeat (apply in_or_app; right). now apply in_map.
  - simpl. now rewrite <- app_assoc.
  - apply teardown_effects_are_teardown.
Qed.

(** C9. [cleanup] is idempotent: run twice in a row it leaves the state
    (session reference, media stream, audio contexts, processor, output
    node, source set, next start time, volume, text input, and the calls made
    on the outside) as one run leaves it, and from a state that is already
    clean it changes nothing. *)
Theorem C9_cleanup_idempotent (w : World) :
  exec cleanup (exec cleanup w) = exec cleanup w /\
  (is_clean w -> exec cleanup w = w).
Proof.
  split.
  - rewrite !cleanup_spec. unfold torn_down at 1.
    rewrite teardown_effects_torn_down, app_nil_r. reflexivity.
  - intros (Hs & Hm & Hi & Ho & Hp & Hn & Hsrc & Hnst & Hv & Ht).
    rewrite cleanup_spec. destruct w; simpl in *; subst.
    unfold torn_down, teardown_effects; simpl. now rewrite app_nil_r.
Qed.

End Teardown.

Lemma C9_cleanup_idempotent_witness :
  exec cleanup (exec cleanup connected) = exec cleanup connected /\
  exec cleanup initial = initial.
Proof.
  split.
  - exact (proj1 (C9_cleanup_idempotent connected)).
  - apply (proj2 (C9_cleanup_idempotent initial)).
    repeat split; reflexivity.
Defined.

(** ** Playback scheduling *)

Lemma scheduled_app (a b : list Effect) : scheduled (a ++ b) = scheduled a ++ scheduled b.
Proof.
  induction a as [|e r IH]; [reflexivity|]. destruct e; simpl; rewrite ?IH; reflexivity.
Qed.

Lemma scheduled_stops (l : list AudioBufferSourceNode) :
  scheduled (List.map source_stop l) = [].
Proof. induction l as [|x r IH]; [reflexivity | exact IH]. Qed.

Lemma Math_max_cases (a b : number) :
  (PrimFloat.compare a b = FLt -> Math_max a b = b) /\
  (PrimFloat.compare a b = FGt -> Math_max a b = a).
Proof. unfold Math_max. split; intros ->; reflexivity. Qed.

Section Playback.

Context {utils : AudioUtils}.

Lemma onmessage_turnComplete_spec (now : Z) (message : LiveServerMessage) (w : World) :
  exec (onmessage_turnComplete now message) w =
  if flag turnComplete message
  then set_volume 0%float (set_logs (logs w ++ [mkLogMessage system (lit "Svari lokið.") now]) w)
  else w.
Proof.
  unfold onmessage_turnComplete. destruct (flag turnComplete message); destruct w; reflexivity.
Qed.

Lemma onmessage_interrupted_spec (now : Z) (message : LiveServerMessage) (w : World) :
  exec (onmessage_interrupted now message) w =
  if flag interrupted message
  then set_nextStartTimeRef 0%float
         (set_sourcesRef []
            (set_effects (effects w ++ List.map source_stop (sourcesRef w))
               (set_logs (logs w ++ [mkLogMessage system (lit "Gripið fram í.") now]) w)))
  else w.
Proof.
  unfold onmessage_interrupted, addLog. destruct (flag interrupted message); destruct w;
    step_handler; reflexivity.
Qed.

(** The end of the handler in closed form. *)
Lemma onmessage_signals_spec (now : Z) (message : LiveServerMessage) (w : World) :
  exec (onmessage_signals now message) w =
  exec (onmessage_interrupted now message) (exec (onmessage_turnComplete now message) w).
Proof. apply exec_seq. Qed.

(** What the end of the handler does to the playback side: nothing, unless
    the message is flagged interrupted; then it stops the sources in flight,
    empties the set and resets the next start time. *)
Lemma onmessage_signals_playback (now : Z) (message : LiveServerMessage) (w : World) :
  let w' := exec (onmessage_signals now message) w in
  outputAudioContextRef w' = outputAudioContextRef w /\
  outputNodeRef w' = outputNodeRef w /\
  nextHandle w' = nextHandle w /\
  effects w' = effects w
               ++ (if flag interrupted message then List.map source_stop (sourcesRef w) else []) /\
  sourcesRef w' = (if flag interrupted message then [] else sourcesRef w) /\
  nextStartTimeRef w' = (if flag interrupted message then 0%float else nextStartTimeRef w).
Proof.
  intros w'. subst w'.
  rewrite onmessage_signals_spec, onmessage_interrupted_spec, onmessage_turnComplete_spec.
  destruct (flag interrupted message), (flag turnComplete message); destruct w; cbn;
    rewrite ?app_nil_r; repeat split.
Qed.

(** A message that carries audio, received with the output context and the
    output node in place: the handler syncs the start time and awaits. *)
Lemma onmessage_awaits (now : Z) (t : number) (message : LiveServerMessage) (b64 : jsstring)
    (ctx : AudioContext) (out : GainNode) (w : World) :
  base64Audio_of message = Normal (Some b64) ->
  truthy b64 = true ->
  outputAudioContextRef w = Some ctx ->
  outputNodeRef w = Some out ->
  exec (onmessage now t message) w
  = set_nextStartTimeRef (Math_max (nextStartTimeRef w) t) w.
Proof.
  intros Ha Hb Hc Hn. unfold onmessage. rewrite Ha.
  destruct w; simpl in *; subst. step_handler. rewrite Hb. reflexivity.
Qed.

(** Any other message whose lookup does not throw is handled at once. *)
Lemma onmessage_at_once (now : Z) (t : number) (message : LiveServerMessage)
    (a : option jsstring) (w : World) :
  base64Audio_of message = Normal a ->
  match a with Some b64 => truthy b64 | None => false end = false \/
  outputAudioContextRef w = None \/ outputNodeRef w = None ->
  exec (onmessage now t message) w = exec (onmessage_signals now message) w.
Proof.
  intros Ha H. unfold onmessage. rewrite Ha.
  destruct w as [cs lg vol ti ic oc ms sp on nst src ses fi eff nh]; simpl in *.
  unfold exec at 1, bind, gets; simpl.
  destruct a as [b64|]; [|reflexivity].
  destruct oc as [ctx|]; [|reflexivity].
  destruct on as [out|]; [|reflexivity].
  destruct H as [H|[H|H]]; try discriminate. rewrite H. reflexivity.
Qed.

(** An interruption handled at once stops every source in flight, empties
    the set and resets the next start time. *)
Lemma interruption_handled_at_once (now : Z) (t : number) (message : LiveServerMessage)
    (a : option jsstring) (w : World) :
  base64Audio_of message = Normal a ->
  match a with Some b64 => truthy b64 | None => false end = false \/
  outputAudioContextRef w = None \/ outputNodeRef w = None ->
  flag interrupted message = true ->
  let w' := exec (onmessage now t message) w in
  effects w' = effects w ++ List.map source_stop (sourcesRef w) /\
  sourcesRef w' = [] /\
  nextStartTimeRef w' = 0%float.
Proof.
  intros Ha H Hi w'. subst w'. rewrite (onmessage_at_once now t message a w Ha H).
  destruct (onmessage_signals_playback now message w) as (_ & _ & _ & H4 & H5 & H6).
  rewrite Hi in H4, H5, H6. auto.
Qed.

(** A message whose lookup throws is dropped. *)
Lemma onmessage_throws (now : Z) (t : number) (message : LiveServerMessage) (w : World) :
  base64Audio_of message = Throw_TypeError ->
  exec (onmessage now t message) w = w.
Proof. intros Ha. unfold onmessage. rewrite Ha. reflexivity. Qed.

(** [connect] finds its target when the component holds an output node and
    the context the handler read. *)
Lemma connect_target_Some (ctx : AudioContext) (out : GainNode) (w : World) :
  fst (connect_target ctx w) = Some out <->
  exists held, outputAudioContextRef w = Some held /\ contextId held = contextId ctx /\
               outputNodeRef w = Some out.
Proof.
  destruct w as [cs lg vol ti ic oc ms sp on nst src ses fi eff nh]. unfold connect_target.
  step_handler. split.
  - destruct oc as [held|]; [|discriminate]. destruct on as [n|]; [|discriminate].
    destruct (Pos.eqb_spec (contextId held) (contextId ctx)) as [Heq|]; [|discriminate].
    intros [= <-]. exists held. auto.
  - intros (held & [= ->] & Heq & [= ->]). now rewrite Heq, Pos.eqb_refl.
Qed.

(** The audio block in closed form, when [connect] finds its target. *)
Lemma onmessage_play_connects (b64 : jsstring) (ctx : AudioContext) (out : GainNode)
    (w : World) :
  fst (connect_target ctx w) = Some out ->
  onmessage_play b64 ctx w =
  (true,
   let source := source_for b64 ctx w in
   set_volume 0.5%float
     (set_sourcesRef (Set_add node source (sourcesRef w))
        (set_nextStartTimeRef (end_time source (nextStartTimeRef w))
           (set_effects (effects w ++ [connect (node source) out;
                                       addEventListener_ended source;
                                       source_start source (nextStartTimeRef w)])
              (set_nextHandle (Pos.succ (nextHandle w)) w))))).
Proof.
  intros H. destruct w as [cs lg vol ti ic oc ms sp on nst src ses fi eff nh].
  unfold onmessage_play, connect_target, createBufferSource in *.
  revert H. step_handler. intros H. rewrite H. step_handler.
  rewrite <- !app_assoc. reflexivity.
Qed.

Lemma onmessage_play_spec (b64 : jsstring) (ctx : AudioContext) (out : GainNode) (w : World) :
  outputAudioContextRef w = Some ctx ->
  outputNodeRef w = Some out ->
  onmessage_play b64 ctx w =
  (true,
   let source := source_for b64 ctx w in
   set_volume 0.5%float
     (set_sourcesRef (Set_add node source (sourcesRef w))
        (set_nextStartTimeRef (end_time source (nextStartTimeRef w))
           (set_effects (effects w ++ [connect (node source) out;
                                       addEventListener_ended source;
                                       source_start source (nextStartTimeRef w)])
              (set_nextHandle (Pos.succ (nextHandle w)) w))))).
Proof.
  intros Hc Hn. apply onmessage_play_connects, connect_target_Some. exists ctx. auto.
Qed.

(** When [connect] throws, the block has created a source and done nothing
    else. *)
Lemma onmessage_play_throws (b64 : jsstring) (ctx : AudioContext) (w : World) :
  fst (connect_target ctx w) = None ->
  onmessage_play b64 ctx w = (false, set_nextHandle (Pos.succ (nextHandle w)) w).
Proof.
  intros H. destruct w as [cs lg vol ti ic oc ms sp on nst src ses fi eff nh].
  unfold onmessage_play, connect_target, createBufferSource in *.
  revert H. step_handler. intros H. rewrite H. reflexivity.
Qed.

(** The resumed handler: the audio block, then the end of the handler
    unless [connect] threw. *)
Lemma onmessage_decoded_spec (now : Z) (message : LiveServerMessage) (b64 : jsstring)
    (ctx : AudioContext) (w : World) :
  base64Audio_of message = Normal (Some b64) ->
  truthy b64 = true ->
  exec (onmessage_decoded now message ctx) w =
  if fst (onmessage_play b64 ctx w)
  then exec (onmessage_signals now message) (exec (onmessage_play b64 ctx) w)
  else exec (onmessage_play b64 ctx) w.
Proof.
  intros Ha Hb. unfold onmessage_decoded. rewrite Ha, Hb. unfold exec, bind.
  destruct (onmessage_play b64 ctx w) as [[] w1]; reflexivity.
Qed.

(** A resumption without a message that awaited does nothing. *)
Lemma onmessage_decoded_none (now : Z) (message : LiveServerMessage) (ctx : AudioContext)
    (w : World) :
  (forall b64, base64Audio_of message = Normal (Some b64) -> truthy b64 = false) ->
  exec (onmessage_decoded now message ctx) w = w.
Proof.
  intros H. unfold onmessage_decoded.
  destruct (base64Audio_of message) as [[b64|]|]; try reflexivity.
  now rewrite (H b64 eq_refl).
Qed.

(** One completed decode, seen from outside. *)
Lemma decoded_step (now : Z) (message : LiveServerMessage) (b64 : jsstring)
    (ctx : AudioContext) (out : GainNode) (w : World) :
  base64Audio_of message = Normal (Some b64) ->
  truthy b64 = true ->
  outputAudioContextRef w = Some ctx ->
  outputNodeRef w = Some out ->
  let w' := exec (onmessage_decoded now message ctx) w in
  let source := source_for b64 ctx w in
  outputAudioContextRef w' = Some ctx /\
  outputNodeRef w' = Some out /\
  effects w' = effects w
               ++ [connect (node source) out; addEventListener_ended source;
                   source_start source (nextStartTimeRef w)]
               ++ (if flag interrupted message
                   then List.map source_stop (Set_add node source (sourcesRef w)) else []) /\
  nextStartTimeRef w' = (if flag interrupted message then 0%float
                         else end_time source (nextStartTimeRef w)).
Proof.
  intros Ha Hb Hc Hn w' source.
  assert (Hp := onmessage_play_spec b64 ctx out w Hc Hn). cbv zeta in Hp. fold source in Hp.
  match type of Hp with _ = (true, ?x) => set (w1 := x) in * end.
  assert (Hw' : w' = exec (onmessage_signals now message) w1).
  { subst w'. rewrite (onmessage_decoded_spec now message b64 ctx w Ha Hb).
    unfold exec. rewrite Hp. reflexivity. }
  destruct (onmessage_signals_playback now message w1) as (H1 & H2 & _ & H4 & _ & H6).
  rewrite Hw', H1, H2, H4, H6. subst w1.
  destruct w; cbn in *; subst. rewrite <- app_assoc. repeat split.
Qed.

Lemma decoded_step_scheduled (now : Z) (message : LiveServerMessage) (b64 : jsstring)
    (ctx : AudioContext) (out : GainNode) (w : World) :
  base64Audio_of message = Normal (Some b64) ->
  truthy b64 = true ->
  outputAudioContextRef w = Some ctx ->
  outputNodeRef w = Some out ->
  scheduled (effects (exec (onmessage_decoded now message ctx) w))
  = scheduled (effects w) ++ [(source_for b64 ctx w, nextStartTimeRef w)].
Proof.
  intros Ha Hb Hc Hn.
  destruct (decoded_step now message b64 ctx out w Ha Hb Hc Hn) as (_ & _ & He & _).
  rewrite He, !scheduled_app.
  destruct (flag interrupted message); rewrite ?scheduled_stops; reflexivity.
Qed.


End Playback.

(** *** The scheduler on concrete messages *)

(** Two numbers that compare different are different. *)
Lemma number_neq (a b : number) : PrimFloat.eqb a a = true -> PrimFloat.eqb a b = false -> a <> b.
Proof. intros Ha Hab Heq. subst. congruence. Qed.



(** C2. An interruption whose model turn holds no parts is lost.  The
    audio lookup on line 174 throws before the handler reaches lines 211 to
    216: with two sources in flight and the next start time at 1.5, the
    message, though flagged interrupted, stops nothing, leaves both sources
    in the set and leaves the next start time at 1.5. *)
Theorem C2_interruption_lost_when_lookup_throws :
  let w' := exec (onmessage 3000 0.75%float bare_turn_interrupted_message)
              playing in
  flag interrupted bare_turn_interrupted_message = true /\
  List.length (sourcesRef playing) = 2%nat /\
  sourcesRef w' = sourcesRef playing /\
  nextStartTimeRef w' = 1.5%float /\
  effects w' = effects playing.
Proof.
  intros w'. subst w'. rewrite onmessage_throws by reflexivity.
  repeat split; vm_compute; reflexivity.
Qed.

(** ** Reasoning about what a handler leaves alone *)

Section Frame.

Variable R : World -> World -> Prop.
Hypothesis R_refl : forall w, R w w.
Hypothesis R_trans : forall w1 w2 w3, R w1 w2 -> R w2 w3 -> R w1 w3.

Lemma respects_ret {A} (a : A) : respects R (ret a).
Proof. intros w. apply R_refl. Qed.

Lemma respects_gets {A} (f : World -> A) : respects R (gets f).
Proof. intros w. apply R_refl. Qed.

Lemma respects_bind {A B} (m : M A) (k : A -> M B) :
  respects R m -> (forall a, respects R (k a)) -> respects R (bind m k).
Proof.
  intros Hm Hk w. unfold bind. specialize (Hm w). destruct (m w) as [a w1]. simpl in Hm.
  apply (R_trans _ _ _ Hm), Hk.
Qed.

Lemma respects_modify (f : World -> World) :
  (forall w, R w (f w)) -> respects R (modify f).
Proof. intros Hf w. apply Hf. Qed.

Lemma respects_fresh :
  (forall w x, R w (set_nextHandle x w)) -> respects R fresh.
Proof. intros Hf w. apply Hf. Qed.

Lemma respects_forEach {A} (xs : list A) (f : A -> M unit) :
  (forall x, respects R (f x)) -> respects R (forEach xs f).
Proof.
  intros Hf. induction xs as [|x r IH]; simpl.
  - apply respects_ret.
  - apply respects_bind; [apply Hf | intros _; apply IH].
Qed.

End Frame.

Lemma same_connection_refl (w : World) : same_connection w w.
Proof. reflexivity. Qed.

Lemma same_connection_trans (w1 w2 w3 : World) :
  same_connection w1 w2 -> same_connection w2 w3 -> same_connection w1 w3.
Proof. unfold same_connection. congruence. Qed.

Lemma log_extended_refl (t : option Z) (w : World) : log_extended t w w.
Proof. exists []. now rewrite app_nil_r. Qed.

Lemma log_extended_trans (t : option Z) (w1 w2 w3 : World) :
  log_extended t w1 w2 -> log_extended t w2 w3 -> log_extended t w1 w3.
Proof.
  intros (n1 & H1 & F1) (n2 & H2 & F2). exists (n1 ++ n2).
  rewrite H2, H1, app_assoc. split; [reflexivity | now apply Forall_app].
Qed.

(** Decomposing a handler into its assignments. *)
Ltac frame_rules R_refl R_trans leaf :=
  repeat first
    [ apply (respects_ret _ R_refl)
    | apply (respects_gets _ R_refl)
    | apply (respects_bind _ R_trans); [|intros ?]
    | apply (respects_forEach _ R_refl R_trans); intros ?
    | apply respects_modify; intros ?; leaf
    | apply respects_fresh; intros ? ?; leaf
    | match goal with
      | |- respects _ (match ?x with _ => _ end) => destruct x
      | |- respects _ (let _ := _ in _) => cbv zeta
      end ].

Ltac unfold_handlers :=
  unfold handler, handleConnect, handleConnect_gotStream, handleConnect_gotSession,
    handleConnect_catch, onopen, onaudioprocess, onmessage, onmessage_decoded, onmessage_play,
    connect_target, onmessage_signals, onmessage_turnComplete, onmessage_interrupted, onended, onclose, onerror,
    handleDisconnect, handleImageUpload, reader_onload, handleSendText, handleKeyDown,
    triggerFileUpload, onChange_textInput, attach_fileInputRef, cleanup, newAudioContext, createBufferSource,
    emit, setVolume, setTextInput.

Section Invariants.

Context {utils : AudioUtils}.

Lemma addLog_log_extended (now : Z) (ty : LogType) (txt : jsstring) :
  respects (log_extended (Some now)) (addLog now ty txt).
Proof.
  intros w. exists [mkLogMessage ty txt now]. split; [reflexivity | repeat constructor].
Qed.

Lemma cleanup_same_connection : respects same_connection cleanup.
Proof.
  unfold_handlers.
  frame_rules same_connection_refl same_connection_trans ltac:(reflexivity).
Qed.

Lemma connection_set_then (c : ConnectionState) (post : M unit) (w : World) :
  respects same_connection post ->
  connectionState (exec (setConnectionState c ;; post) w) = c.
Proof. intros H. rewrite exec_seq. apply (H (exec (setConnectionState c) w)). Qed.

Lemma addLog_same_connection (now : Z) (ty : LogType) (txt : jsstring) :
  respects same_connection (addLog now ty txt).
Proof. intros w. reflexivity. Qed.

Ltac same_connection_frame :=
  unfold_handlers;
  frame_rules same_connection_refl same_connection_trans ltac:(reflexivity);
  try apply addLog_same_connection.

Lemma step_connection (e : Event) (w : World) :
  connectionState (step w e) = connection_after e (connectionState w).
Proof.
  unfold step.
  destruct e; cbn [connection_after handler];
    try match goal with |- connectionState (exec ?m ?w) = connectionState ?w =>
          revert w; change (respects same_connection m); same_connection_frame end.
  - apply connection_set_then. same_connection_frame.
  - unfold handleConnect_catch. do 2 rewrite exec_seq.
    apply connection_set_then, cleanup_same_connection.
  - unfold onopen. rewrite exec_seq. apply connection_set_then. same_connection_frame.
  - unfold onclose. rewrite exec_seq. apply connection_set_then, cleanup_same_connection.
  - unfold onerror. do 2 rewrite exec_seq. apply connection_set_then, cleanup_same_connection.
  - unfold handleDisconnect. rewrite exec_seq. apply connection_set_then.
    apply addLog_same_connection.
Qed.

(** C7. The connection state changes in response to the session's
    life-cycle callbacks ([onopen] sets CONNECTED, [onclose] DISCONNECTED,
    [onerror] ERROR) and to the user's connection actions: [handleConnect]
    sets CONNECTING and, if the attempt fails, ERROR, and [handleDisconnect]
    sets DISCONNECTED.  No other code path changes it. *)
Theorem C7_connection_state_transitions (e : Event) (w : World) :
  connectionState (step w e) = connection_after e (connectionState w) /\
  (connectionState (step w e) <> connectionState w ->
   is_lifecycle_callback e = true \/
   (exists now, e = click_connect now) \/ (exists now, e = connect_failed now) \/
   (exists now, e = click_disconnect now)).
Proof.
  split; [apply step_connection|].
  rewrite step_connection.
  destruct e; cbn [connection_after is_lifecycle_callback]; intros H;
    try congruence; eauto 6.
Qed.

(** C6. The connection indicator has four states: disconnected,
    connecting, connected and error are distinct and are all there is, so at
    every point of every execution the connection state is exactly one of
    them, every update assigns one of them, and each of them occurs. *)
Theorem C6_connection_state_four_valued :
  NoDup ConnectionState_values /\
  (forall c : ConnectionState, In c ConnectionState_values) /\
  (forall trace, In (connectionState (run trace initial)) ConnectionState_values) /\
  (forall c w, connectionState (exec (setConnectionState c) w) = c /\
               In c ConnectionState_values) /\
  (forall c, exists trace, connectionState (run trace initial) = c).
Proof.
  assert (Hall : forall c : ConnectionState, In c ConnectionState_values)
    by (intros []; simpl; auto).
  repeat split; auto.
  - repeat constructor; simpl; intuition discriminate.
  - intros [].
    + exists []. reflexivity.
    + exists [click_connect 0]. reflexivity.
    + exists [session_onopen 0 (mkAudioContext 1 16000 2) (mkMediaStream [])]. reflexivity.
    + exists [connect_failed 0]. reflexivity.
Qed.

(** *** The display log *)

Ltac log_leaf := exists []; split; [symmetry; apply app_nil_r | constructor].

Lemma handler_log_extended (e : Event) :
  respects (log_extended (clock_of e)) (handler e).
Proof.
  destruct e; cbn [clock_of]; unfold_handlers;
    frame_rules uconstr:(log_extended_refl _) uconstr:(log_extended_trans _) ltac:(log_leaf);
    try apply addLog_log_extended;
    try (unfold_handlers;
         frame_rules uconstr:(log_extended_refl _) uconstr:(log_extended_trans _) ltac:(log_leaf);
         try apply addLog_log_extended).
Qed.

Lemma Forall_le_copies (a t : Z) (new : list Z) :
  (a <= t)%Z -> Forall (fun x => x = t) new -> Forall (Z.le a) new.
Proof.
  intros Hle Hnew. apply (Forall_impl _ (P := fun x => x = t)); [|exact Hnew].
  intros x ->. exact Hle.
Qed.

Lemma ssorted_spread (l new r : list Z) (t : Z) :
  StronglySorted Z.le (l ++ t :: r) ->
  Forall (fun x => x = t) new ->
  StronglySorted Z.le (l ++ new ++ r).
Proof.
  intros Hs Hnew. induction l as [|a l IH]; simpl in *.
  - apply StronglySorted_inv in Hs. destruct Hs as [Hr Ht].
    induction new as [|x new IHn]; simpl; [exact Hr|].
    inversion Hnew as [|? ? Hx Hrest]; subst.
    constructor; [apply IHn, Hrest|]. apply Forall_app. split; [|exact Ht].
    apply (Forall_le_copies t t); [apply Z.le_refl | exact Hrest].
  - apply StronglySorted_inv in Hs. destruct Hs as [Hs Ha].
    constructor; [apply IH, Hs|].
    apply Forall_app in Ha. destruct Ha as [Hl Htr].
    inversion Htr as [|? ? Hat Har]; subst.
    apply Forall_app. split; [exact Hl|]. apply Forall_app. split; [|exact Har].
    apply (Forall_le_copies a t); assumption.
Qed.

Lemma run_logs_extended (trace : list Event) (w : World) :
  exists new, logs (run trace w) = logs w ++ new.
Proof.
  revert w. induction trace as [|e r IH]; intros w.
  - exists []. simpl. now rewrite app_nil_r.
  - change (run (e :: r) w) with (run r (step w e)).
    destruct (IH (step w e)) as (n2 & H2).
    destruct (handler_log_extended e w) as (n1 & H1 & _).
    change (snd (handler e w)) with (step w e) in H1.
    exists (n1 ++ n2). now rewrite H2, H1, app_assoc.
Qed.

Lemma run_logs_sorted (trace : list Event) (w : World) :
  StronglySorted Z.le (List.map timestamp (logs w) ++ clock_readings trace) ->
  StronglySorted Z.le (List.map timestamp (logs (run trace w))).
Proof.
  revert w. induction trace as [|e r IH]; intros w Hs.
  - simpl in *. now rewrite app_nil_r in Hs.
  - change (run (e :: r) w) with (run r (step w e)). apply IH.
    destruct (handler_log_extended e w) as (new & Hnew & Hstamp).
    change (snd (handler e w)) with (step w e) in Hnew. rewrite Hnew, map_app, <- app_assoc.
    cbn [clock_readings] in Hs. destruct (clock_of e) as [t|].
    + apply (ssorted_spread _ _ _ t Hs).
      apply Forall_forall. intros x Hx. apply in_map_iff in Hx. destruct Hx as (m & <- & Hm).
      rewrite Forall_forall in Hstamp. specialize (Hstamp m Hm). congruence.
    + destruct new as [|m new]; [exact Hs|]. inversion Hstamp; discriminate.
Qed.

(** C8. The display log is a chronological, append-only sequence of tagged
    text entries: a log operation appends exactly one entry, tagged user,
    model or system, to the end of the list; no handler removes or reorders
    entries, so the log after any run extends the log before it; and, the
    wall clock not running backwards, the timestamps are non-decreasing in
    list order. *)
Theorem C8_log_append_only :
  (forall now ty txt w,
      exec (addLog now ty txt) w = set_logs (logs w ++ [mkLogMessage ty txt now]) w) /\
  (forall ty : LogType, ty = user \/ ty = model \/ ty = system) /\
  (forall trace w, exists new, logs (run trace w) = logs w ++ new) /\
  (forall trace,
      Sorted Z.le (clock_readings trace) ->
      Sorted Z.le (List.map timestamp (logs (run trace initial)))).
Proof.
  repeat split.
  - intros []; auto.
  - apply run_logs_extended.
  - intros trace Hs. apply StronglySorted_Sorted, run_logs_sorted. simpl.
    apply Sorted_StronglySorted; [|exact Hs]. intros x y z. apply Z.le_trans.
Qed.

(** *** Text input *)

(** C10. [handleSendText] is guarded: if the text input trims to the empty
    string or the session reference is null it returns without sending
    anything, without appending a log entry and without touching the text
    input; otherwise it appends exactly one user log entry holding the trimmed
    text, sends that trimmed text to the session, and resets the text input
    to the empty string. *)
Theorem C10_handleSendText_guarded (now : Z) (w : World) :
  (trim (textInput w) = [] \/ sessionRef w = None ->
   exec (handleSendText now) w = w) /\
  (forall session,
      trim (textInput w) <> [] ->
      sessionRef w = Some session ->
      exec (handleSendText now) w =
      set_textInput []
        (set_effects
           (effects w ++
            [sendRealtimeInput session
               (content_input
                  (mkContent (Some [mkPart None (Some (trim (textInput w)))])
                             (Some (lit "user"))))])
           (set_logs (logs w ++ [mkLogMessage user (trim (textInput w)) now]) w))).
Proof.
  destruct w as [cs lg vol ti ic oc ms sp on nst src ses fi eff nh]; simpl.
  unfold handleSendText, addLog. split.
  - intros [H|H]; step_handler.
    + rewrite H. reflexivity.
    + rewrite H. destruct (truthy (trim ti)); reflexivity.
  - intros session Ht Hs. apply truthy_nonempty in Ht. subst. step_handler.
    rewrite Ht. step_handler. reflexivity.
Qed.

End Invariants.

(** ** Playback across events *)

Lemma same_playback_refl (w : World) : same_playback w w.
Proof. repeat split. Qed.

Lemma same_playback_trans (w1 w2 w3 : World) :
  same_playback w1 w2 -> same_playback w2 w3 -> same_playback w1 w3.
Proof.
  unfold same_playback. intros (A1 & B1 & C1 & D1) (A2 & B2 & C2 & D2). repeat split; congruence.
Qed.

Ltac playback_leaf :=
  repeat split; cbn; rewrite ?scheduled_app; cbn; rewrite ?app_nil_r; reflexivity.

Section Schedule.

Context {utils : AudioUtils}.

(** A quiet event that is not a server message leaves the playback side
    alone. *)
Lemma handler_same_playback (e : Event) :
  is_quiet e = true ->
  (forall now t message, e <> session_onmessage now t message) ->
  respects same_playback (handler e).
Proof.
  intros Hq He.
  destruct e; try discriminate Hq; try (exfalso; eapply He; reflexivity);
    unfold_handlers; unfold addLog, setLogs, setConnectionState;
    frame_rules same_playback_refl same_playback_trans ltac:(playback_leaf);
    try (unfold_handlers; unfold addLog, setLogs, setConnectionState;
         frame_rules same_playback_refl same_playback_trans ltac:(playback_leaf)).
Qed.

(** What a quiet event does to the playback side of a component that holds
    an output context and an output node: if it is an audio message it raises
    the next start time to its audio clock reading, and that is all. *)
Lemma quiet_step (e : Event) (ctx : AudioContext) (out : GainNode) (w : World) :
  is_quiet e = true ->
  outputAudioContextRef w = Some ctx ->
  outputNodeRef w = Some out ->
  outputAudioContextRef (step w e) = Some ctx /\
  outputNodeRef (step w e) = Some out /\
  scheduled (effects (step w e)) = scheduled (effects w) /\
  nextStartTimeRef (step w e)
  = match arrival e with
    | Some t => Math_max (nextStartTimeRef w) t
    | None => nextStartTimeRef w
    end.
Proof.
  intros Hq Hc Hn.
  assert (Hm : (exists now t message, e = session_onmessage now t message) \/
               (forall now t message, e <> session_onmessage now t message))
    by (destruct e; first [left; do 3 eexists; reflexivity | right; discriminate]).
  destruct Hm as [(now & t & message & ->) | He].
  - cbn [is_quiet] in Hq. apply negb_true_iff in Hq. cbn [arrival]. unfold step, handler.
    assert (Hsig : forall a,
              base64Audio_of message = Normal a ->
              match a with Some b64 => truthy b64 | None => false end = false ->
              outputAudioContextRef (exec (onmessage now t message) w) = Some ctx /\
              outputNodeRef (exec (onmessage now t message) w) = Some out /\
              scheduled (effects (exec (onmessage now t message) w)) = scheduled (effects w) /\
              nextStartTimeRef (exec (onmessage now t message) w) = nextStartTimeRef w).
    { intros a Ha Hno. rewrite (onmessage_at_once now t message a w Ha) by (left; exact Hno).
      destruct (onmessage_signals_playback now message w) as (H1 & H2 & _ & H4 & _ & H6).
      rewrite Hq in H4, H6. rewrite H1, H2, H4, H6, app_nil_r. auto. }
    destruct (base64Audio_of message) as [[b64|]|] eqn:Ha.
    + destruct (truthy b64) eqn:Hb; [|exact (Hsig _ eq_refl Hb)].
      rewrite (onmessage_awaits now t message b64 ctx out w Ha Hb Hc Hn).
      destruct w; cbn in *; auto.
    + exact (Hsig _ eq_refl eq_refl).
    + rewrite (onmessage_throws now t message w Ha). auto.
  - destruct (handler_same_playback e Hq He w) as (A & B & C & D).
    change (snd (handler e w)) with (step w e) in A, B, C, D.
    assert (Harr : arrival e = None)
      by (destruct e; try reflexivity; exfalso; eapply He; reflexivity).
    rewrite A, B, C, D, Harr. auto.
Qed.

(** Over a run of quiet events the next start time becomes the largest of
    its value and the audio clock readings of the audio messages received. *)
Lemma quiet_run (trace : list Event) (ctx : AudioContext) (out : GainNode) (w : World) :
  Forall (fun e => is_quiet e = true) trace ->
  outputAudioContextRef w = Some ctx ->
  outputNodeRef w = Some out ->
  outputAudioContextRef (run trace w) = Some ctx /\
  outputNodeRef (run trace w) = Some out /\
  scheduled (effects (run trace w)) = scheduled (effects w) /\
  nextStartTimeRef (run trace w) = fold_left Math_max (arrivals trace) (nextStartTimeRef w).
Proof.
  intros Hq. revert w. induction Hq as [|e r He Hr IH]; intros w Hc Hn; [auto|].
  change (run (e :: r) w) with (run r (step w e)).
  destruct (quiet_step e ctx out w He Hc Hn) as (Hc1 & Hn1 & Hs1 & Ht1).
  destruct (IH (step w e) Hc1 Hn1) as (Hc2 & Hn2 & Hs2 & Ht2).
  rewrite Hc2, Hn2, Hs2, Ht2, Hs1, Ht1. cbn [arrivals].
  destruct (arrival e); auto.
Qed.

Lemma run_app (a b : list Event) (w : World) : run (a ++ b) w = run b (run a w).
Proof. apply fold_left_app. Qed.

(** Two buffers started one after the other, with quiet events in between. *)
Lemma consecutive_decodes (now1 now2 : Z) (message1 message2 : LiveServerMessage)
    (b1 b2 : jsstring) (between : list Event) (ctx : AudioContext) (out : GainNode)
    (w : World) :
  base64Audio_of message1 = Normal (Some b1) ->
  b1 <> [] ->
  flag interrupted message1 = false ->
  base64Audio_of message2 = Normal (Some b2) ->
  b2 <> [] ->
  Forall (fun e => is_quiet e = true) between ->
  outputAudioContextRef w = Some ctx ->
  outputNodeRef w = Some out ->
  let previous_end :=
    (nextStartTimeRef w + duration (decodeAudioData (decode b1) ctx 24000 1))%float in
  let start := fold_left Math_max (arrivals between) previous_end in
  let end_ := (start + duration (decodeAudioData (decode b2) ctx 24000 1))%float in
  playback (effects (run (decodeAudioData_resolved now1 message1 ctx
                            :: between ++ [decodeAudioData_resolved now2 message2 ctx]) w))
  = playback (effects w) ++ [(nextStartTimeRef w, previous_end); (start, end_)].
Proof.
  intros Ha1 Hb1 Hi1 Ha2 Hb2 Hq Hc Hn previous_end start end_.
  apply truthy_nonempty in Hb1, Hb2.
  change (run (decodeAudioData_resolved now1 message1 ctx
                 :: between ++ [decodeAudioData_resolved now2 message2 ctx]) w)
    with (run (between ++ [decodeAudioData_resolved now2 message2 ctx])
              (exec (onmessage_decoded now1 message1 ctx) w)).
  rewrite run_app.
  set (w1 := exec (onmessage_decoded now1 message1 ctx) w).
  destruct (decoded_step now1 message1 b1 ctx out w Ha1 Hb1 Hc Hn) as (Hc1 & Hn1 & _ & Ht1).
  assert (Hs1 := decoded_step_scheduled now1 message1 b1 ctx out w Ha1 Hb1 Hc Hn).
  fold w1 in Hc1, Hn1, Ht1, Hs1. rewrite Hi1 in Ht1.
  destruct (quiet_run between ctx out w1 Hq Hc1 Hn1) as (Hc2 & Hn2 & Hs2 & Ht2).
  set (w2 := run between w1) in *.
  change (run [decodeAudioData_resolved now2 message2 ctx] w2)
    with (exec (onmessage_decoded now2 message2 ctx) w2).
  unfold playback.
  rewrite (decoded_step_scheduled now2 message2 b2 ctx out w2 Ha2 Hb2 Hc2 Hn2).
  rewrite Hs2, Hs1, Ht2, Ht1, <- app_assoc, map_app. reflexivity.
Qed.

Lemma fold_Math_max_earlier (l : list number) (a : number) :
  Forall (fun t => PrimFloat.compare a t = FGt) l -> fold_left Math_max l a = a.
Proof.
  induction 1 as [|t r Ht _ IH]; [reflexivity|].
  cbn [fold_left]. now rewrite (proj2 (Math_max_cases a t) Ht).
Qed.

(** C3. For every two buffers scheduled one after the other, with no
    interruption, teardown or new connection between them, the later buffer
    starts at the larger of the end time (start time plus duration) of the
    earlier one and the output context's current times read by the audio
    messages received in between.  It starts at that end time, and playback
    is gap-free, when those current times are earlier than it; it starts at
    the current time of a message received after the earlier buffer has
    ended. *)
Theorem C3_playback_follows_schedule (now1 now2 : Z) (message1 message2 : LiveServerMessage)
    (b1 b2 : jsstring) (between : list Event) (ctx : AudioContext) (out : GainNode)
    (w : World) :
  base64Audio_of message1 = Normal (Some b1) ->
  b1 <> [] ->
  flag interrupted message1 = false ->
  base64Audio_of message2 = Normal (Some b2) ->
  b2 <> [] ->
  Forall (fun e => is_quiet e = true) between ->
  outputAudioContextRef w = Some ctx ->
  outputNodeRef w = Some out ->
  let previous_end :=
    (nextStartTimeRef w + duration (decodeAudioData (decode b1) ctx 24000 1))%float in
  let start := fold_left Math_max (arrivals between) previous_end in
  let end_ := (start + duration (decodeAudioData (decode b2) ctx 24000 1))%float in
  playback (effects (run (decodeAudioData_resolved now1 message1 ctx
                            :: between ++ [decodeAudioData_resolved now2 message2 ctx]) w))
  = playback (effects w) ++ [(nextStartTimeRef w, previous_end); (start, end_)] /\
  (Forall (fun t => PrimFloat.compare previous_end t = FGt) (arrivals between) ->
   start = previous_end /\
   gap_free [(nextStartTimeRef w, previous_end); (start, end_)]) /\
  (forall t, arrivals between = [t] ->
             PrimFloat.compare previous_end t = FLt -> start = t).
Proof.
  intros Ha1 Hb1 Hi1 Ha2 Hb2 Hq Hc Hn previous_end start end_.
  split; [|split].
  - exact (consecutive_decodes now1 now2 message1 message2 b1 b2 between ctx out w
             Ha1 Hb1 Hi1 Ha2 Hb2 Hq Hc Hn).
  - intros Hearly.
    assert (Hstart : start = previous_end) by (apply fold_Math_max_earlier, Hearly).
    split; [exact Hstart|]. cbn [gap_free]. auto.
  - intros t Ht Hlate. subst start. rewrite Ht. cbn [fold_left].
    exact (proj1 (Math_max_cases previous_end t) Hlate).
Qed.

End Schedule.

(** ** The microphone tap *)

Section Microphone.

Context {utils : AudioUtils}.

(** A loop over the indices of an array is a fold over its elements. *)
Lemma index_loop {A B} (f : A -> B -> A) (d : B) (pre l : list B) (a : A) :
  fold_left (fun acc i => f acc (nth i (pre ++ l) d)) (seq (List.length pre) (List.length l)) a
  = fold_left f l a.
Proof.
  revert pre a. induction l as [|x r IH]; intros pre a; [reflexivity|].
  cbn [List.length seq fold_left]. rewrite nth_middle.
  replace (pre ++ x :: r) with ((pre ++ [x]) ++ r) by now rewrite <- app_assoc.
  replace (S (List.length pre)) with (List.length (pre ++ [x]))
    by (rewrite length_app; simpl; lia).
  apply IH.
Qed.

Lemma fold_left_squares (l : list number) (a : number) :
  fold_left (fun sum x => (sum + x * x)%float) l a
  = fold_left PrimFloat.add (List.map (fun x => x * x)%float l) a.
Proof. revert a. induction l as [|x r IH]; intros a; [reflexivity|]. simpl. apply IH. Qed.

(** The meter's loop computes the root mean square. *)
Lemma rms_is_rms_spec (frame : Float32Array) : rms frame = rms_spec frame.
Proof.
  unfold rms, rms_spec, mean. rewrite length_map. do 2 f_equal.
  unfold sum_of_squares. etransitivity; [|apply fold_left_squares].
  exact (index_loop (fun sum x => (sum + x * x)%float) nan [] frame 0%float).
Qed.

(** C5. For every microphone frame the audio callback processes, the
    scalar it computes is the RMS of the frame, the square root of the mean
    of the squared samples; the volume it sets is the larger of five times
    that RMS and nine tenths of the previous volume; and the frame is
    PCM-encoded into a blob and handed to the session's [sendRealtimeInput]. *)
Theorem C5_audio_frame_processed (session : Session) (frame : Float32Array) (w : World) :
  rms frame = rms_spec frame /\
  exec (onaudioprocess session frame) w =
  set_effects (effects w ++ [sendRealtimeInput session (media_input (createBlob frame))])
    (set_volume (Math_max (rms_spec frame * 5) (volume w * 0.9))%float w).
Proof.
  split; [apply rms_is_rms_spec|].
  unfold onaudioprocess. rewrite rms_is_rms_spec. destruct w; reflexivity.
Qed.

End Microphone.

(** ** The remaining claims on concrete inputs *)

(** A steady frame at one half has RMS one half, and the meter shows two
    and a half. *)
Lemma C5_volume_is_not_the_rms :
  rms_spec steady_frame = 0.5%float /\
  volume (exec (onaudioprocess (utils := sample_utils) 200%positive steady_frame) connected) = 2.5%float /\
  volume (exec (onaudioprocess (utils := sample_utils) 200%positive steady_frame) connected)
  <> rms_spec steady_frame.
Proof.
  split; [vm_compute; reflexivity|]. split; [vm_compute; reflexivity|].
  apply number_neq; vm_compute; reflexivity.
Qed.

(** Clicking connect and clicking disconnect change the connection state,
    and neither is a callback of the session. *)
Lemma C7_user_actions_change_connection_state :
  is_lifecycle_callback (click_connect 1000) = false /\
  connectionState (step (utils := sample_utils) initial (click_connect 1000))
  <> connectionState initial /\
  is_lifecycle_callback (click_disconnect 9000) = false /\
  connectionState (step (utils := sample_utils) connected (click_disconnect 9000))
  <> connectionState connected.
Proof.
  repeat split; intros H; vm_compute in H; discriminate.
Qed.

Lemma C7_connection_state_transitions_witness :
  is_lifecycle_callback (click_disconnect 9000) = true \/
  (exists now, click_disconnect 9000 = click_connect now) \/
  (exists now, click_disconnect 9000 = connect_failed now) \/
  (exists now, click_disconnect 9000 = click_disconnect now).
Proof.
  apply (proj2 (C7_connection_state_transitions (utils := sample_utils)
                  (click_disconnect 9000) connected)).
  intros H; vm_compute in H; discriminate.
Defined.

(** A chunk received while the previous one is still to be started is
    queued right behind it, whatever else happens in between. *)
Lemma C3_playback_follows_schedule_witness :
  playback (effects (run (utils := sample_utils)
                       (first_decoded
                        :: [prompt_chunk; session_onmessage 2600 0.6%float turn_complete_message;
                            audioprocess 200%positive [0.5%float]]
                        ++ [prompt_decoded]) connected))
  = playback (effects connected) ++ [(0, 1); (1, 1.5)]%float.
Proof.
  refine (proj1
    (C3_playback_follows_schedule (utils := sample_utils) 2010 2510
       (audio_message one_second) (audio_message half_second) one_second half_second
       [prompt_chunk; session_onmessage 2600 0.6%float turn_complete_message;
        audioprocess 200%positive [0.5%float]]
       output_context output_node connected eq_refl _ eq_refl eq_refl _ _ eq_refl eq_refl)).
  - apply truthy_nonempty. reflexivity.
  - apply truthy_nonempty. reflexivity.
  - repeat constructor.
Defined.

(** A chunk that arrives after the previous one has finished starts on
    arrival, four seconds after the previous end: playback is not gap-free. *)
Lemma C3_gap_after_underrun :
  ~ gap_free (playback (effects (run (utils := sample_utils)
                                   [first_chunk; first_decoded; late_chunk; late_decoded]
                                   connected))).
Proof.
  change (~ (5 = 1 /\ True)%float). intros [H _].
  revert H. apply number_neq; reflexivity.
Qed.

(** When the wall clock is set back between two log operations, so are the
    timestamps: a connect logged at 1000 is followed by a disconnect logged
    at 500. *)
Lemma C8_timestamps_follow_the_clock :
  List.map timestamp
    (logs (run (utils := sample_utils) [click_connect 1000; click_disconnect 500] initial))
  = [1000; 500]%Z /\
  ~ Sorted Z.le
      (List.map timestamp
         (logs (run (utils := sample_utils) [click_connect 1000; click_disconnect 500] initial))).
Proof.
  split; [reflexivity|].
  change (~ Sorted Z.le [1000; 500]%Z). intros H.
  apply Sorted_inv in H. destruct H as [_ H]. apply HdRel_inv in H. lia.
Qed.

Lemma C8_log_append_only_witness :
  Sorted Z.le (List.map timestamp (logs (run (utils := sample_utils) whole_session initial))).
Proof.
  apply (proj2 (proj2 (proj2 (C8_log_append_only (utils := sample_utils))))).
  vm_compute. repeat constructor; discriminate.
Defined.

Lemma C10_handleSendText_guarded_witness :
  exec (handleSendText 5000) initial = initial /\
  exec (handleSendText 5000) typed =
  set_textInput []
    (set_effects
       (effects typed ++
        [sendRealtimeInput 200%positive
           (content_input
              (mkContent (Some [mkPart None (Some (lit "Hvert fer gler?"))])
                         (Some (lit "user"))))])
       (set_logs (logs typed ++ [mkLogMessage user (lit "Hvert fer gler?") 5000]) typed)).
Proof.
  split.
  - apply (proj1 (C10_handleSendText_guarded 5000 initial)). right. reflexivity.
  - apply (proj2 (C10_handleSendText_guarded 5000 typed) 200%positive).
    + apply truthy_nonempty. reflexivity.
    + reflexivity.
Defined.

(** * Further properties of the handlers *)

(** ** Order of the scheduled buffers *)

Lemma SFcompare_None (x y : spec_float) :
  SFcompare x y = None -> x = S754_nan \/ y = S754_nan.
Proof.
  destruct x as [s1| s1| |s1 m1 e1], y as [s2| s2| |s2 m2 e2]; simpl; auto; discriminate.
Qed.

Lemma not_nan_compare_refl (a : number) : is_nan a = false -> PrimFloat.compare a a = FEq.
Proof.
  unfold is_nan. rewrite FloatAxioms.eqb_spec, FloatAxioms.compare_spec. unfold SFeqb.
  destruct (SFcompare (Prim2SF a) (Prim2SF a)) as [[]|]; simpl; congruence.
Qed.

Lemma not_nan_comparable (a b : number) :
  is_nan a = false -> is_nan b = false -> PrimFloat.compare a b <> FNotComparable.
Proof.
  intros Ha Hb Hc. apply not_nan_compare_refl in Ha, Hb.
  rewrite FloatAxioms.compare_spec in Ha, Hb, Hc.
  destruct (SFcompare (Prim2SF a) (Prim2SF b)) as [[]|] eqn:Hs; try discriminate.
  apply SFcompare_None in Hs. destruct Hs as [Hs|Hs]; rewrite Hs in *; discriminate.
Qed.

Lemma leb_compare (a b : number) :
  PrimFloat.leb a b = true <-> PrimFloat.compare a b = FLt \/ PrimFloat.compare a b = FEq.
Proof.
  rewrite FloatAxioms.leb_spec, FloatAxioms.compare_spec. unfold SFleb.
  destruct (SFcompare (Prim2SF a) (Prim2SF b)) as [[]|]; simpl; split; intros H; auto;
    try discriminate; destruct H; discriminate.
Qed.

(** [Math.max] of two numbers is at least each of them. *)
Lemma Math_max_upper_bound (a b : number) :
  is_nan a = false -> is_nan b = false ->
  PrimFloat.leb a (Math_max a b) = true /\ PrimFloat.leb b (Math_max a b) = true.
Proof.
  intros Ha Hb.
  assert (Haa := not_nan_compare_refl a Ha). assert (Hbb := not_nan_compare_refl b Hb).
  assert (Hab := not_nan_comparable a b Ha Hb). assert (Hba := compare_antisym a b).
  unfold Math_max. destruct (PrimFloat.compare a b) eqn:Hc; try congruence;
    try destruct (get_sign a); split; apply leb_compare; auto.
Qed.

Lemma Math_max_not_nan (a b : number) :
  is_nan a = false -> is_nan b = false -> is_nan (Math_max a b) = false.
Proof.
  intros Ha Hb. assert (Hab := not_nan_comparable a b Ha Hb).
  unfold Math_max. destruct (PrimFloat.compare a b); try congruence.
  destruct (get_sign a); assumption.
Qed.

Ltac order_cases :=
  repeat match goal with
    | |- context [PosDef.Pos.compare_cont Eq ?a ?b] =>
        change (PosDef.Pos.compare_cont Eq a b) with (Pos.compare a b)
    | |- context [Z.compare ?a ?b] => destruct (Z.compare_spec a b); simpl
    | |- context [Pos.compare ?a ?b] => destruct (Pos.compare_spec a b); simpl
    end.

Lemma SFcompare_le_trans (x y z : spec_float) :
  SFcompare x y = Some Lt \/ SFcompare x y = Some Eq ->
  SFcompare y z = Some Lt \/ SFcompare y z = Some Eq ->
  SFcompare x z = Some Lt \/ SFcompare x z = Some Eq.
Proof.
  destruct x as [s1| s1| |s1 m1 e1], y as [s2| s2| |s2 m2 e2], z as [s3| s3| |s3 m3 e3];
    simpl; try (intros [H|H] [H'|H']; discriminate);
    try destruct s1; try destruct s2; try destruct s3; simpl;
    try (intros [H|H] [H'|H']; first [discriminate | now auto]);
    order_cases; intros [Hxy|Hxy] [Hyz|Hyz]; first [discriminate | now auto | lia].
Qed.

Lemma leb_trans (a b c : number) :
  PrimFloat.leb a b = true -> PrimFloat.leb b c = true -> PrimFloat.leb a c = true.
Proof.
  rewrite !leb_compare, !FloatAxioms.compare_spec. intros Hab Hbc.
  assert (H : SFcompare (Prim2SF a) (Prim2SF c) = Some Lt \/
              SFcompare (Prim2SF a) (Prim2SF c) = Some Eq).
  { apply (SFcompare_le_trans _ (Prim2SF b)).
    - destruct (SFcompare (Prim2SF a) (Prim2SF b)) as [[]|]; auto;
        destruct Hab; discriminate.
    - destruct (SFcompare (Prim2SF b) (Prim2SF c)) as [[]|]; auto;
        destruct Hbc; discriminate. }
  destruct H as [-> | ->]; auto.
Qed.

(** The largest of a number and a list of numbers is at least the number. *)
Lemma fold_Math_max_lower (l : list number) (a x : number) :
  is_nan a = false ->
  Forall (fun t => is_nan t = false) l ->
  PrimFloat.leb x a = true ->
  PrimFloat.leb x (fold_left Math_max l a) = true.
Proof.
  intros Ha Hl. revert a Ha. induction Hl as [|t r Ht _ IH]; intros a Ha Hx; [exact Hx|].
  cbn [fold_left]. apply IH; [now apply Math_max_not_nan|].
  apply (leb_trans x a); [exact Hx | now apply Math_max_upper_bound].
Qed.


Section Ordering.

Context {utils : AudioUtils}.

(** X1. A buffer is never scheduled before the audio clock reading of its
    message nor before the next start time tracked when the message was
    received: with quiet events between receipt and the end of the decoding
    (no interruption, no teardown, no new connection, no other buffer
    started), and all the numbers involved being numbers (not NaN), the start
    time handed to [source.start] is at least both. *)
Theorem audio_buffer_never_early (now1 now2 : Z) (t : number) (message : LiveServerMessage)
    (b64 : jsstring) (between : list Event) (ctx : AudioContext) (out : GainNode)
    (w : World) :
  base64Audio_of message = Normal (Some b64) ->
  b64 <> [] ->
  Forall (fun e => is_quiet e = true) between ->
  outputAudioContextRef w = Some ctx ->
  outputNodeRef w = Some out ->
  is_nan t = false ->
  is_nan (nextStartTimeRef w) = false ->
  Forall (fun t' => is_nan t' = false) (arrivals between) ->
  let w1 := run (session_onmessage now1 t message :: between) w in
  exists start,
    scheduled (effects (step w1 (decodeAudioData_resolved now2 message ctx)))
    = scheduled (effects w) ++ [(source_for b64 ctx w1, start)] /\
    PrimFloat.leb t start = true /\
    PrimFloat.leb (nextStartTimeRef w) start = true.
Proof.
  intros Ha Hb Hq Hc Hn Ht Hnst Harr w1. apply truthy_nonempty in Hb.
  set (w0 := step w (session_onmessage now1 t message)).
  assert (Hw0 : w0 = set_nextStartTimeRef (Math_max (nextStartTimeRef w) t) w)
    by apply (onmessage_awaits now1 t message b64 ctx out w Ha Hb Hc Hn).
  assert (Hc0 : outputAudioContextRef w0 = Some ctx) by (rewrite Hw0; destruct w; exact Hc).
  assert (Hn0 : outputNodeRef w0 = Some out) by (rewrite Hw0; destruct w; exact Hn).
  assert (He0 : effects w0 = effects w) by (rewrite Hw0; destruct w; reflexivity).
  assert (Ht0 : nextStartTimeRef w0 = Math_max (nextStartTimeRef w) t)
    by (rewrite Hw0; destruct w; reflexivity).
  change w1 with (run between w0).
  destruct (quiet_run between ctx out w0 Hq Hc0 Hn0) as (Hc1 & Hn1 & Hs1 & Ht1).
  exists (nextStartTimeRef (run between w0)). split; [|split].
  - unfold step, handler.
    rewrite (decoded_step_scheduled now2 message b64 ctx out _ Ha Hb Hc1 Hn1), Hs1, He0.
    reflexivity.
  - rewrite Ht1, Ht0.
    apply fold_Math_max_lower; [now apply Math_max_not_nan | exact Harr |].
    now apply Math_max_upper_bound.
  - rewrite Ht1, Ht0.
    apply fold_Math_max_lower; [now apply Math_max_not_nan | exact Harr |].
    now apply Math_max_upper_bound.
Qed.



End Ordering.

(** ** Ending a session *)

Section Ending.

Context {utils : AudioUtils}.

Lemma onclose_spec (now : Z) (w : World) :
  exec (onclose now) w =
  torn_down
    (set_connectionState DISCONNECTED
       (set_logs (logs w ++ [mkLogMessage system (lit "Tengingu lokað.") now]) w)).
Proof. rewrite <- cleanup_spec. reflexivity. Qed.

Lemma handleConnect_catch_spec (now : Z) (w : World) :
  exec (handleConnect_catch now) w =
  torn_down
    (set_connectionState ERROR
       (set_logs (logs w ++ [mkLogMessage system (lit "Tenging mistókst.") now])
          (set_effects (effects w ++ [console_error (lit "Connection failed")]) w))).
Proof. rewrite <- cleanup_spec. reflexivity. Qed.

Lemma handleDisconnect_spec (now : Z) (w : World) :
  exec (handleDisconnect now) w =
  set_logs (logs w ++ [mkLogMessage system (lit "Notandi endaði setu.") now])
    (set_connectionState DISCONNECTED (torn_down w)).
Proof.
  unfold handleDisconnect. rewrite exec_seq, cleanup_spec. reflexivity.
Qed.

(** X3. Every path that ends a session (a failed connection attempt, the
    session closing, a session error, the user disconnecting) leaves the
    component clean: all references null, no source in flight, next start
    time and volume zero, text input empty.  The connection state is
    DISCONNECTED or ERROR, one system entry is logged, and the calls made on
    the outside are the console report, if any, followed by the stops and
    closes of the teardown. *)
Theorem every_teardown_leaves_clean (e : Event) (w : World) :
  is_teardown_event e = true ->
  is_clean (step w e) /\
  (connectionState (step w e) = DISCONNECTED \/ connectionState (step w e) = ERROR) /\
  effects (step w e) = effects w ++ teardown_report e ++ teardown_effects w /\
  exists m, logs (step w e) = logs w ++ [m] /\ type m = system.
Proof.
  intros He. unfold step.
  destruct e; try discriminate; cbn [handler teardown_report];
    [rewrite handleConnect_catch_spec | rewrite onclose_spec | rewrite onerror_spec
    | rewrite handleDisconnect_spec];
    destruct w as [cs lg vol ti ic oc ms sp on nst src ses fi eff nh];
    (split; [repeat split|]); (split; [auto|]);
    (split; [cbn; rewrite <- ?app_assoc; reflexivity | eexists; split; reflexivity]).
Qed.

(** X4. Once the component is clean, messages that still arrive from the
    session (which a teardown never closes) are harmless: whatever the
    message holds, the handler makes no call on the outside, schedules
    nothing, keeps the connection state and leaves the component clean. *)
Theorem message_after_teardown_is_harmless (now : Z) (t : number)
    (message : LiveServerMessage) (w : World) :
  is_clean w ->
  is_clean (exec (onmessage now t message) w) /\
  effects (exec (onmessage now t message) w) = effects w /\
  connectionState (exec (onmessage now t message) w) = connectionState w.
Proof.
  intros (Hs & Hm & Hi & Ho & Hp & Hn & Hsrc & Hnst & Hv & Ht).
  destruct (base64Audio_of message) as [a|] eqn:Ha.
  - rewrite (onmessage_at_once now t message a w Ha) by (right; left; exact Ho).
    rewrite onmessage_signals_spec, onmessage_turnComplete_spec, onmessage_interrupted_spec.
    destruct w as [cs lg vol ti ic oc ms sp on nst src ses fi eff nh]; simpl in *; subst.
    destruct (flag turnComplete message), (flag interrupted message); simpl;
      rewrite ?app_nil_r; repeat split.
  - rewrite (onmessage_throws now t message w Ha). repeat split; assumption.
Qed.

End Ending.

(** ** Invariants of the references *)

Lemma dropped_from_refl {A} (l : list A) : dropped_from l l.
Proof.
  exists (fun _ => true). induction l as [|x r IH]; [reflexivity|]. simpl. now rewrite <- IH.
Qed.

Lemma dropped_from_nil {A} (l : list A) : dropped_from [] l.
Proof. exists (fun _ => false). induction l as [|x r IH]; [reflexivity|]. exact IH. Qed.

Lemma dropped_from_trans {A} (l1 l2 l3 : list A) :
  dropped_from l3 l2 -> dropped_from l2 l1 -> dropped_from l3 l1.
Proof.
  intros (f & ->) (g & ->). exists (fun x => g x && f x). clear.
  induction l1 as [|x r IH]; [reflexivity|]. simpl.
  destruct (g x); simpl; [destruct (f x)|]; now rewrite IH.
Qed.

Lemma dropped_from_In {A} (l' l : list A) (x : A) : dropped_from l' l -> In x l' -> In x l.
Proof. intros (f & ->) H. now apply filter_In in H. Qed.

Lemma dropped_from_NoDup {A B} (g : A -> B) (l' l : list A) :
  dropped_from l' l -> NoDup (List.map g l) -> NoDup (List.map g l').
Proof.
  intros (f & ->). induction l as [|x r IH]; intros H; [constructor|].
  inversion H as [|? ? Hx Hr]; subst. simpl. destruct (f x); [|now apply IH].
  simpl. constructor; [|now apply IH].
  intros Hin. apply Hx. apply in_map_iff in Hin. destruct Hin as (y & <- & Hy).
  apply in_map. now apply filter_In in Hy.
Qed.

Lemma sources_shrink_refl (w : World) : sources_shrink w w.
Proof.
  split; [apply Pos.le_refl|]. split; [exists []; now rewrite app_nil_r | apply dropped_from_refl].
Qed.

Lemma sources_shrink_trans (w1 w2 w3 : World) :
  sources_shrink w1 w2 -> sources_shrink w2 w3 -> sources_shrink w1 w3.
Proof.
  intros (H1 & (n1 & E1) & D1) (H2 & (n2 & E2) & D2). split; [|split].
  - now apply (Pos.le_trans _ (nextHandle w2)).
  - exists (n1 ++ n2). now rewrite E2, E1, app_assoc.
  - now apply (dropped_from_trans _ (sourcesRef w2)).
Qed.

Ltac shrink_leaf :=
  split; [cbn; lia|];
  split; [first [eexists; cbn; reflexivity | exists []; cbn; now rewrite app_nil_r]|];
  cbn; first [apply dropped_from_refl | apply dropped_from_nil | eexists; reflexivity].

Lemma sources_wf_shrink (w w' : World) : sources_shrink w w' -> sources_wf w -> sources_wf w'.
Proof.
  intros (Hh & (new & He) & Hd) (Hnd & Hs). split.
  - exact (dropped_from_NoDup node _ _ Hd Hnd).
  - intros s Hin. destruct (Hs s (dropped_from_In _ _ s Hd Hin)) as (Hlt & Hb & t & Ht).
    split; [lia|]. split; [exact Hb|]. exists t. rewrite He. apply in_or_app. now left.
Qed.

Lemma Set_add_fresh {A} (identity : A -> handle) (x : A) (l : list A) :
  (forall y, In y l -> identity y <> identity x) -> Set_add identity x l = l ++ [x].
Proof.
  intros H. unfold Set_add, Set_has.
  destruct (existsb (fun y => (identity x =? identity y)%positive) l) eqn:E; [|reflexivity].
  apply existsb_exists in E. destruct E as (y & Hy & Heq). apply Pos.eqb_eq in Heq.
  exfalso. apply (H y Hy). now symmetry.
Qed.

Lemma Set_delete_last {A} (identity : A -> handle) (x : A) (l : list A) :
  (forall y, In y l -> identity y <> identity x) -> Set_delete identity x (l ++ [x]) = l.
Proof.
  intros H. unfold Set_delete. rewrite filter_app. simpl. rewrite Pos.eqb_refl. simpl.
  rewrite app_nil_r. induction l as [|y r IH]; [reflexivity|]. simpl.
  destruct (Pos.eqb_spec (identity x) (identity y)) as [Heq|Hne].
  - exfalso. apply (H y (or_introl eq_refl)). now symmetry.
  - simpl. rewrite IH; [reflexivity|]. intros z Hz. apply H. now right.
Qed.

Section References.

Context {utils : AudioUtils}.

Ltac unfold_setters := unfold addLog, setLogs, setConnectionState.

Lemma same_audio_refs_refl (w : World) : same_audio_refs w w.
Proof. reflexivity. Qed.

Lemma same_audio_refs_trans (w1 w2 w3 : World) :
  same_audio_refs w1 w2 -> same_audio_refs w2 w3 -> same_audio_refs w1 w3.
Proof. unfold same_audio_refs. congruence. Qed.

(** What an event does to the three audio references: nothing, or it sets
    all of them, or it clears all of them. *)
Lemma step_audio_refs (e : Event) (w : World) :
  audio_refs (step w e) = audio_refs w \/
  audio_refs (step w e) = (None, None, None) \/
  exists ic oc out, audio_refs (step w e) = (Some ic, Some oc, Some out).
Proof.
  destruct (is_teardown_event e) eqn:Ht.
  - right; left. unfold step.
    destruct e; try discriminate; cbn [handler];
      [rewrite handleConnect_catch_spec | rewrite onclose_spec | rewrite onerror_spec
      | rewrite handleDisconnect_spec]; reflexivity.
  - destruct e; try discriminate;
      try solve [left; unfold step, exec;
           match goal with |- audio_refs (snd (?m ?w)) = audio_refs ?w =>
             revert w; change (respects same_audio_refs m) end;
           unfold_handlers; unfold_setters;
           frame_rules same_audio_refs_refl same_audio_refs_trans ltac:(reflexivity)].
    right; right. destruct w. do 3 eexists. reflexivity.
Qed.

(** X5. In every state the component can reach, the input context, the
    output context and the output node are all set or all null: they are set
    together when a connection starts and cleared together by a teardown, and
    nothing else touches them.  So the guard of the audio block on line 175,
    which tests the output context and the output node, passes exactly when
    the component holds an output context. *)
Theorem audio_refs_stay_paired (trace : list Event) (w : World) :
  refs_paired w ->
  refs_paired (run trace w) /\
  (outputAudioContextRef (run trace w) <> None <-> outputNodeRef (run trace w) <> None).
Proof.
  intros Hw. assert (H : refs_paired (run trace w)).
  { revert w Hw. induction trace as [|e r IH]; intros w Hw; [exact Hw|].
    change (run (e :: r) w) with (run r (step w e)). apply IH.
    unfold refs_paired in *.
    destruct (step_audio_refs e w) as [H|[H|(ic & oc & out & H)]]; rewrite H; auto. }
  split; [exact H|]. unfold refs_paired, audio_refs in H.
  destruct (inputAudioContextRef (run trace w)), (outputAudioContextRef (run trace w)),
    (outputNodeRef (run trace w)); try contradiction; split; congruence.
Qed.

(** Every handler but the resumed [onmessage] only drops sources. *)
Lemma step_sources_shrink (e : Event) (w : World) :
  (forall now message ctx, e <> decodeAudioData_resolved now message ctx) ->
  sources_shrink w (step w e).
Proof.
  intros He. unfold step, exec.
  destruct e; try (exfalso; eapply He; reflexivity);
    match goal with |- sources_shrink ?w (snd (?m ?w)) =>
      revert w; change (respects sources_shrink m) end;
    unfold_handlers; unfold_setters; unfold Set_delete;
    frame_rules sources_shrink_refl sources_shrink_trans ltac:(shrink_leaf).
Qed.

Lemma onmessage_signals_sources_shrink (now : Z) (message : LiveServerMessage) :
  respects sources_shrink (onmessage_signals now message).
Proof.
  unfold_handlers; unfold_setters.
  frame_rules sources_shrink_refl sources_shrink_trans ltac:(shrink_leaf).
Qed.

(** The audio block adds a source it has just created and started. *)
Lemma onmessage_play_sources_wf (b64 : jsstring) (ctx : AudioContext) (w : World) :
  sources_wf w -> sources_wf (exec (onmessage_play b64 ctx) w).
Proof.
  intros Hw. unfold exec.
  destruct (fst (connect_target ctx w)) as [out|] eqn:Htarget.
  - rewrite (onmessage_play_connects b64 ctx out w Htarget). cbn [snd].
    destruct Hw as (Hnd & Hs).
    assert (Hfresh : forall y, In y (sourcesRef w) -> node y <> node (source_for b64 ctx w)).
    { intros y Hy. destruct (Hs y Hy) as (Hlt & _). cbn. lia. }
    clear Htarget.
    destruct w as [cs lg vol ti ic oc ms sp on nst src ses fi eff nh]; cbn in *.
    match goal with |- context [Set_add node ?x src] =>
      rewrite (Set_add_fresh node x src Hfresh) end.
    unfold source_for in *. split; unfold_handler; cbn [node buffer] in *.
    + rewrite map_app. cbn. apply NoDup_app; [exact Hnd | repeat constructor; auto |].
      intros h Hh [<-|[]]. apply in_map_iff in Hh. destruct Hh as (y & Hy1 & Hy2).
      exact (Hfresh y Hy2 Hy1).
    + intros s Hin. apply in_app_or in Hin. destruct Hin as [Hin|[<-|[]]].
      * destruct (Hs s Hin) as (Hlt & Hb' & t' & Ht'). split; [lia|]. split; [exact Hb'|].
        exists t'. apply in_or_app. now left.
      * split; [cbn; lia|]. split; [discriminate|]. eexists. apply in_or_app. right.
        cbn. right. right. left. reflexivity.
  - rewrite (onmessage_play_throws b64 ctx w Htarget). cbn [snd].
    apply (sources_wf_shrink w); [|exact Hw]. destruct w. shrink_leaf.
Qed.

Lemma onmessage_decoded_sources_wf (now : Z) (message : LiveServerMessage)
    (ctx : AudioContext) (w : World) :
  sources_wf w -> sources_wf (exec (onmessage_decoded now message ctx) w).
Proof.
  intros Hw.
  destruct (base64Audio_of message) as [[b64|]|] eqn:Ha;
    try (rewrite onmessage_decoded_none; [exact Hw | intros b H; rewrite Ha in H; discriminate]).
  destruct (truthy b64) eqn:Hb;
    [|rewrite onmessage_decoded_none; [exact Hw | intros b H; rewrite Ha in H; congruence]].
  rewrite (onmessage_decoded_spec now message b64 ctx w Ha Hb).
  assert (H1 := onmessage_play_sources_wf b64 ctx w Hw).
  destruct (fst (onmessage_play b64 ctx w)); [|exact H1].
  exact (sources_wf_shrink _ _ (onmessage_signals_sources_shrink now message _) H1).
Qed.

Lemma run_sources_wf (trace : list Event) (w : World) :
  sources_wf w -> sources_wf (run trace w).
Proof.
  revert w. induction trace as [|e r IH]; intros w Hw; [exact Hw|].
  change (run (e :: r) w) with (run r (step w e)). apply IH.
  destruct e; try (eapply sources_wf_shrink; [apply step_sources_shrink; discriminate | exact Hw]).
  apply onmessage_decoded_sources_wf, Hw.
Qed.

Lemma initial_sources_wf : sources_wf initial.
Proof. split; [constructor | intros s []]. Qed.

(** X6. In every state the component can reach, the sources in the
    in-flight set are distinct objects, and each of them holds a buffer and
    has been started: [start] is called before a source is added to the set,
    and nothing else adds to it.  The [stop] calls of an interruption or a
    teardown are therefore made on started sources only. *)
Theorem in_flight_sources_are_started (trace : list Event) :
  NoDup (List.map node (sourcesRef (run trace initial))) /\
  forall s, In s (sourcesRef (run trace initial)) ->
    buffer s <> None /\ exists t, In (source_start s t) (effects (run trace initial)).
Proof.
  destruct (run_sources_wf trace initial initial_sources_wf) as (Hnd & Hs).
  split; [exact Hnd|]. intros s Hin. destruct (Hs s Hin) as (_ & Hb & Ht). auto.
Qed.

(** X7. A buffer that plays to its end leaves the in-flight set as it
    found it: in every reachable state, scheduling the decoded audio of a
    message and then receiving the ['ended'] event of its source gives back
    the set of sources there was before. *)
Theorem ended_undoes_scheduling (trace : list Event) (b64 : jsstring)
    (ctx : AudioContext) (out : GainNode) :
  outputAudioContextRef (run trace initial) = Some ctx ->
  outputNodeRef (run trace initial) = Some out ->
  sourcesRef (exec (onended (source_for b64 ctx (run trace initial)))
                (exec (onmessage_play b64 ctx) (run trace initial)))
  = sourcesRef (run trace initial).
Proof.
  intros Hc Hn.
  destruct (run_sources_wf trace initial initial_sources_wf) as (_ & Hs).
  set (w := run trace initial) in *.
  assert (Hfresh : forall y, In y (sourcesRef w) -> node y <> node (source_for b64 ctx w)).
  { intros y Hy. destruct (Hs y Hy) as (Hlt & _). cbn. lia. }
  unfold exec at 2. rewrite (onmessage_play_spec b64 ctx out w Hc Hn).
  change (Set_delete node (source_for b64 ctx w)
            (Set_add node (source_for b64 ctx w) (sourcesRef w)) = sourcesRef w).
  rewrite (Set_add_fresh node _ _ Hfresh). apply Set_delete_last. exact Hfresh.
Qed.

End References.

(** ** What reaches the log and the session *)

Lemma log_grows_refl (P : LogMessage -> Prop) (w : World) : log_grows P w w.
Proof. exists []. now rewrite app_nil_r. Qed.

Lemma log_grows_trans (P : LogMessage -> Prop) (w1 w2 w3 : World) :
  log_grows P w1 w2 -> log_grows P w2 w3 -> log_grows P w1 w3.
Proof.
  intros (n1 & H1 & F1) (n2 & H2 & F2). exists (n1 ++ n2).
  rewrite H2, H1, app_assoc. split; [reflexivity | now apply Forall_app].
Qed.

Lemma trimStart_split (s : jsstring) : exists pre, s = pre ++ trimStart s /\ blank pre.
Proof.
  induction s as [|c r (pre & Hr & Hb)]; [exists []; split; [reflexivity | constructor]|].
  simpl. destruct (isWhiteSpace c) eqn:Hc.
  - exists (c :: pre). split; [simpl; now rewrite <- Hr | now constructor].
  - exists []. split; [reflexivity | constructor].
Qed.

Lemma trimStart_head (s : jsstring) (c : N) (r : jsstring) :
  trimStart s = c :: r -> isWhiteSpace c = false.
Proof.
  induction s as [|d s IH]; [discriminate|]. simpl.
  destruct (isWhiteSpace d) eqn:Hd; [exact IH|]. intros H. injection H as <- _. exact Hd.
Qed.

Lemma trimEnd_split (s : jsstring) : exists post, s = trimEnd s ++ post /\ blank post.
Proof.
  destruct (trimStart_split (rev s)) as (pre & Hs & Hb). exists (rev pre). split.
  - unfold trimEnd. rewrite <- rev_app_distr, <- Hs. now rewrite rev_involutive.
  - now apply Forall_rev.
Qed.

Lemma trimEnd_last (s : jsstring) (d : N) :
  trimEnd s <> [] -> isWhiteSpace (last (trimEnd s) d) = false.
Proof.
  unfold trimEnd. destruct (trimStart (rev s)) as [|c r] eqn:E; [intros H; now elim H|].
  intros _. simpl. rewrite last_last. exact (trimStart_head _ _ _ E).
Qed.

(** [trim] takes white space off both ends and nothing else. *)
Lemma trim_spec (s : jsstring) :
  (exists pre post, s = pre ++ trim s ++ post /\ blank pre /\ blank post) /\
  (trim s <> [] ->
   isWhiteSpace (hd 0%N (trim s)) = false /\ isWhiteSpace (last (trim s) 0%N) = false).
Proof.
  destruct (trimStart_split s) as (pre & Hpre & Bpre).
  destruct (trimEnd_split (trimStart s)) as (post & Hpost & Bpost).
  split.
  - exists pre, post. unfold trim. rewrite <- Hpost. auto.
  - intros Hne. split; [|apply trimEnd_last, Hne].
    unfold trim in *. destruct (trimEnd (trimStart s)) as [|c r] eqn:E; [now elim Hne|].
    simpl. simpl in Hpost. exact (trimStart_head _ _ _ Hpost).
Qed.

Lemma split_comma_1_none (s : jsstring) : ~ In 44%N s -> split_comma_1 s = None.
Proof.
  induction s as [|c r IH]; [reflexivity|]. intros H. simpl.
  destruct (N.eqb_spec c 44) as [->|_]; [elim H; now left|]. apply IH. intros Hr. apply H. now right.
Qed.

Lemma until_comma_all (s : jsstring) : ~ In 44%N s -> until_comma s = s.
Proof.
  induction s as [|c r IH]; [reflexivity|]. intros H. simpl.
  destruct (N.eqb_spec c 44) as [->|_]; [elim H; now left|]. rewrite IH; [reflexivity|].
  intros Hr. apply H. now right.
Qed.

Lemma split_comma_1_payload (pre payload : jsstring) :
  ~ In 44%N pre -> ~ In 44%N payload -> split_comma_1 (pre ++ 44%N :: payload) = Some payload.
Proof.
  intros Hpre Hpay. induction pre as [|c r IH]; simpl.
  - now rewrite until_comma_all.
  - destruct (N.eqb_spec c 44) as [->|_]; [elim Hpre; now left|].
    apply IH. intros Hr. apply Hpre. now right.
Qed.

Section Wire.

Context {utils : AudioUtils}.

Ltac grows_leaf := exists []; split; [symmetry; apply app_nil_r | constructor].

Lemma addLog_log_grows (P : LogMessage -> Prop) (now : Z) (ty : LogType) (txt : jsstring) :
  P (mkLogMessage ty txt now) -> respects (log_grows P) (addLog now ty txt).
Proof. intros H w. exists [mkLogMessage ty txt now]. split; [reflexivity | now constructor]. Qed.

Ltac entries_frame :=
  unfold_handlers;
  frame_rules uconstr:(log_grows_refl _) uconstr:(log_grows_trans _) ltac:(grows_leaf);
  try (apply addLog_log_grows; first [left; reflexivity | right; split; reflexivity]).

Lemma handler_entries (e : Event) : respects (log_grows (entry_of e)) (handler e).
Proof. destruct e; entries_frame; entries_frame. Qed.

(** X8. The log holds system and user entries only: although an entry may
    be tagged model, no handler appends one.  User entries come from the
    user's own inputs (a text sent by click or by Enter, an image once read);
    every other event appends system entries or nothing. *)
Theorem log_entries_are_system_or_user :
  (forall e w, exists new,
      logs (step w e) = logs w ++ new /\ Forall (entry_of e) new) /\
  (forall trace, Forall (fun m => type m <> model) (logs (run trace initial))).
Proof.
  split; [intros e w; exact (handler_entries e w)|].
  assert (H : forall trace w, Forall (fun m => type m <> model) (logs w) ->
                              Forall (fun m => type m <> model) (logs (run trace w))).
  { induction trace as [|e r IH]; intros w Hw; [exact Hw|].
    change (run (e :: r) w) with (run r (step w e)). apply IH.
    destruct (handler_entries e w) as (new & Hnew & Hall).
    change (snd (handler e w)) with (step w e) in Hnew. rewrite Hnew.
    apply Forall_app. split; [exact Hw|].
    apply (Forall_impl _ (P := entry_of e)); [|exact Hall].
    intros m [Hm|[Hm _]]; rewrite Hm; discriminate. }
  intros trace. apply H. constructor.
Qed.

(** X9. [handleSendText] never sends blank or padded text.  Either it
    changes nothing, or the session is set and the typed text is white space,
    then a text, then white space, where the text is not empty and neither
    starts nor ends with white space; that text is what is sent and what is
    logged as the user's entry, and the text input is emptied. *)
Theorem sent_text_is_trimmed (now : Z) (w : World) :
  exec (handleSendText now) w = w \/
  exists session text pre post,
    sessionRef w = Some session /\
    textInput w = pre ++ text ++ post /\ blank pre /\ blank post /\
    text <> [] /\
    isWhiteSpace (hd 0%N text) = false /\ isWhiteSpace (last text 0%N) = false /\
    effects (exec (handleSendText now) w) = effects w ++ [text_message session text] /\
    logs (exec (handleSendText now) w) = logs w ++ [mkLogMessage user text now] /\
    textInput (exec (handleSendText now) w) = [].
Proof.
  destruct (trim_spec (textInput w)) as ((pre & post & Hsplit & Bpre & Bpost) & Hends).
  destruct w as [cs lg vol ti ic oc ms sp on nst src ses fi eff nh]; cbn in *.
  unfold handleSendText, addLog. step_handler.
  destruct (truthy (trim ti)) eqn:Ht; [|now left].
  destruct ses as [session|]; [|now left].
  right. apply truthy_nonempty in Ht. destruct (Hends Ht) as (Hhd & Hlast).
  exists session, (trim ti), pre, post. step_handler. repeat split; auto.
Qed.

(** X10. A picked image is sent as the payload of its data URL.  With a
    session set, for a data URL made of a prefix, a comma and a payload (no
    other comma, as in [data:image/jpeg;base64,...]), [reader.onload] sends one
    media input holding the payload and the file's type, appends one user
    entry, and empties the file input if it is mounted.  When the URL holds no
    comma the input is still sent, without data. *)
Theorem image_payload_is_sent (now : Z) (file : File) (session : Session) (w : World) :
  sessionRef w = Some session ->
  let sent data :=
    set_fileInputRef (match fileInputRef w with Some _ => Some [] | None => None end)
      (set_logs (logs w ++ [mkLogMessage user (lit "Sendi mynd til greiningar") now])
         (set_effects
            (effects w ++
             [sendRealtimeInput session (media_input (mkBlob data (Some (file_type file))))])
            w)) in
  (forall pre payload,
      file_dataURL file = pre ++ 44%N :: payload ->
      ~ In 44%N pre -> ~ In 44%N payload ->
      exec (reader_onload now file) w = sent (Some payload)) /\
  (~ In 44%N (file_dataURL file) -> exec (reader_onload now file) w = sent None).
Proof.
  intros Hs sent. subst sent.
  destruct w as [cs lg vol ti ic oc ms sp on nst src ses fi eff nh]; cbn in *; subst.
  unfold reader_onload, addLog. split.
  - intros pre payload Hurl Hpre Hpay. rewrite Hurl, (split_comma_1_payload pre payload Hpre Hpay).
    step_handler. destruct fi; reflexivity.
  - intros Hno. rewrite (split_comma_1_none _ Hno). step_handler. destruct fi; reflexivity.
Qed.

End Wire.

(** ** Who calls what *)

Lemma effects_grow_refl (P : Effect -> Prop) (w : World) : effects_grow P w w.
Proof. exists []. now rewrite app_nil_r. Qed.

Lemma effects_grow_trans (P : Effect -> Prop) (w1 w2 w3 : World) :
  effects_grow P w1 w2 -> effects_grow P w2 w3 -> effects_grow P w1 w3.
Proof.
  intros (n1 & H1 & F1) (n2 & H2 & F2). exists (n1 ++ n2).
  rewrite H2, H1, app_assoc. split; [reflexivity | now apply Forall_app].
Qed.

Section Calls.

Context {utils : AudioUtils}.

Ltac calls_leaf :=
  first [ exists []; split; [cbn; symmetry; apply app_nil_r | constructor]
        | eexists; split; [cbn; reflexivity | repeat constructor] ].

Lemma handler_calls (e : Event) :
  respects (effects_grow (fun x => effect_allowed e x = true)) (handler e).
Proof.
  destruct e; unfold_handlers; unfold addLog, setLogs, setConnectionState;
    frame_rules uconstr:(effects_grow_refl _) uconstr:(effects_grow_trans _) ltac:(calls_leaf);
    try (unfold_handlers; unfold addLog, setLogs, setConnectionState;
         frame_rules uconstr:(effects_grow_refl _) uconstr:(effects_grow_trans _)
                     ltac:(calls_leaf)).
Qed.

(** X11. Each call on the outside has its own triggers, and no handler
    makes a call that is not its own.  The microphone is requested only when
    the user clicks connect and the session is opened only when the
    microphone stream arrives, so nothing reconnects by itself; sources are
    started only by server messages, once decoded; tracks are stopped and
    contexts closed only by the four teardown paths, and sources are stopped
    only by those and by server messages; audio and images go to the session only from the audio
    callback and a read image, text only from the send action. *)
Theorem calls_have_their_triggers (e : Event) (w : World) :
  exists new,
    effects (step w e) = effects w ++ new /\
    Forall (fun x => effect_allowed e x = true) new.
Proof. exact (handler_calls e w). Qed.

(** X12. When a server message schedules a buffer.  On receipt it never
    does.  When its decoding completes it does exactly when it carries a
    non-empty data string and the component then holds an output node and the
    output context the handler had read: if a teardown has run during the
    decoding, or a new connection has replaced the context, [connect] throws
    and nothing is scheduled. *)
Theorem message_schedules_iff (now : Z) (t : number) (message : LiveServerMessage)
    (ctx : AudioContext) (w : World) :
  scheduled (effects (exec (onmessage now t message) w)) = scheduled (effects w) /\
  (scheduled (effects (exec (onmessage_decoded now message ctx) w)) <> scheduled (effects w) <->
   exists b64 held out,
     base64Audio_of message = Normal (Some b64) /\ b64 <> [] /\
     outputAudioContextRef w = Some held /\ contextId held = contextId ctx /\
     outputNodeRef w = Some out).
Proof.
  split.
  - destruct (handler_calls (session_onmessage now t message) w) as (new & Hnew & Hall).
    change (snd (handler (session_onmessage now t message) w))
      with (exec (onmessage now t message) w) in Hnew.
    rewrite Hnew, scheduled_app. clear Hnew.
    induction Hall as [|x r Hx _ IH]; [now rewrite app_nil_r|].
    destruct x; try discriminate Hx; exact IH.
  - split.
    + intros Hne.
      destruct (base64Audio_of message) as [[b64|]|] eqn:Ha;
        try (elim Hne; rewrite onmessage_decoded_none;
             [reflexivity | intros b H; rewrite Ha in H; discriminate]).
      destruct (truthy b64) eqn:Hb;
        [|elim Hne; rewrite onmessage_decoded_none;
          [reflexivity | intros b H; rewrite Ha in H; congruence]].
      rewrite (onmessage_decoded_spec now message b64 ctx w Ha Hb) in Hne.
      destruct (fst (connect_target ctx w)) as [out|] eqn:Htarget.
      * apply connect_target_Some in Htarget. destruct Htarget as (held & Hc & Hid & Hn).
        exists b64, held, out. apply truthy_nonempty in Hb. auto.
      * elim Hne. unfold exec. rewrite (onmessage_play_throws b64 ctx w Htarget).
        destruct w; reflexivity.
    + intros (b64 & held & out & Ha & Hb & Hc & Hid & Hn). apply truthy_nonempty in Hb.
      assert (Htarget : fst (connect_target ctx w) = Some out)
        by (apply connect_target_Some; exists held; auto).
      rewrite (onmessage_decoded_spec now message b64 ctx w Ha Hb).
      unfold exec at 2 3. rewrite (onmessage_play_connects b64 ctx out w Htarget). cbn [fst snd].
      match goal with |- context [exec (onmessage_signals now message) ?x] =>
        destruct (onmessage_signals_playback now message x) as (_ & _ & _ & H4 & _) end.
      rewrite H4, scheduled_app.
      intros Heq. apply (f_equal (@List.length _)) in Heq. revert Heq.
      destruct (flag interrupted message); rewrite ?scheduled_stops;
        destruct w; cbn; rewrite scheduled_app, !length_app; cbn; lia.
Qed.


End Calls.

(** ** The volume meter *)

Section Meter.

Context {utils : AudioUtils}.

(** X15. The meter decays smoothly: after an audio frame the volume is at
    least nine tenths of what it was and at least five times the RMS of the
    frame, whenever those two are numbers. *)
Theorem volume_decays_smoothly (session : Session) (frame : Float32Array) (w : World) :
  is_nan (rms_spec frame * 5)%float = false ->
  is_nan (volume w * 0.9)%float = false ->
  PrimFloat.leb (volume w * 0.9)%float (volume (exec (onaudioprocess session frame) w)) = true /\
  PrimFloat.leb (rms_spec frame * 5)%float (volume (exec (onaudioprocess session frame) w)) = true.
Proof.
  intros Hr Hv.
  assert (Hvol : volume (exec (onaudioprocess session frame) w)
                 = Math_max (rms_spec frame * 5)%float (volume w * 0.9)%float)
    by (unfold onaudioprocess; rewrite rms_is_rms_spec; destruct w; reflexivity).
  rewrite Hvol. destruct (Math_max_upper_bound _ _ Hr Hv). auto.
Qed.

End Meter.

(** ** The further properties on concrete inputs *)

Lemma audio_buffer_never_early_witness :
  exists start,
    scheduled (effects (step (utils := sample_utils)
                          (run (utils := sample_utils)
                             (session_onmessage 2000 0.25%float (audio_message one_second)
                              :: [session_onmessage 2005 0.3%float turn_complete_message])
                             connected)
                          (decodeAudioData_resolved 2010 (audio_message one_second)
                             output_context)))
    = scheduled (effects connected)
      ++ [(source_for (utils := sample_utils) one_second output_context
             (run (utils := sample_utils)
                (session_onmessage 2000 0.25%float (audio_message one_second)
                 :: [session_onmessage 2005 0.3%float turn_complete_message])
                connected), start)] /\
    PrimFloat.leb 0.25%float start = true /\
    PrimFloat.leb (nextStartTimeRef connected) start = true.
Proof.
  apply (audio_buffer_never_early (utils := sample_utils) 2000 2010 0.25%float
           (audio_message one_second) one_second
           [session_onmessage 2005 0.3%float turn_complete_message]
           output_context output_node connected); try reflexivity.
  - apply truthy_nonempty. reflexivity.
  - repeat constructor.
  - constructor.
Defined.


Lemma every_teardown_leaves_clean_witness :
  is_clean (step (utils := sample_utils) connected (click_disconnect 9000)) /\
  effects (step (utils := sample_utils) connected (click_disconnect 9000))
  = effects connected ++ [track_stop 100%positive;
                          context_close (mkAudioContext 1 16000 2);
                          context_close output_context].
Proof.
  destruct (every_teardown_leaves_clean (utils := sample_utils) (click_disconnect 9000)
              connected eq_refl) as (Hclean & _ & Heff & _).
  split; [exact Hclean | exact Heff].
Defined.

Lemma message_after_teardown_is_harmless_witness :
  effects (exec (onmessage 9500 6%float (audio_message one_second))
             (exec cleanup connected))
  = effects (exec cleanup connected).
Proof.
  apply (message_after_teardown_is_harmless 9500 6%float
           (audio_message one_second) (exec cleanup connected)).
  repeat split; reflexivity.
Defined.

Lemma audio_refs_stay_paired_witness :
  refs_paired (run (utils := sample_utils) whole_session initial).
Proof.
  apply (audio_refs_stay_paired (utils := sample_utils) whole_session initial). exact I.
Defined.

Lemma ended_undoes_scheduling_witness :
  sourcesRef (exec (onended (source_for (utils := sample_utils) one_second output_context
                               (run (utils := sample_utils) connecting initial)))
                (exec (onmessage_play (utils := sample_utils) one_second output_context)
                   (run (utils := sample_utils) connecting initial)))
  = sourcesRef (run (utils := sample_utils) connecting initial).
Proof.
  apply (ended_undoes_scheduling (utils := sample_utils) connecting one_second
           output_context output_node); reflexivity.
Defined.

Lemma image_payload_is_sent_witness :
  effects (exec (reader_onload 6000 picked_image) connected)
  = effects connected
    ++ [sendRealtimeInput 200%positive
          (media_input (mkBlob (Some (lit "iVBORw0KGgo=")) (Some (lit "image/png"))))].
Proof.
  rewrite (proj1 (image_payload_is_sent 6000 picked_image 200%positive connected eq_refl)
             (lit "data:image/png;base64") (lit "iVBORw0KGgo=") eq_refl).
  - reflexivity.
  - cbn. intuition discriminate.
  - cbn. intuition discriminate.
Defined.



Lemma volume_decays_smoothly_witness :
  PrimFloat.leb (volume typed * 0.9)%float
    (volume (exec (onaudioprocess (utils := sample_utils) 200%positive steady_frame) typed))
  = true /\
  PrimFloat.leb (rms_spec steady_frame * 5)%float
    (volume (exec (onaudioprocess (utils := sample_utils) 200%positive steady_frame) typed))
  = true.
Proof.
  refine (volume_decays_smoothly (utils := sample_utils) 200%positive steady_frame typed _ _).
  - vm_compute. reflexivity.
  - vm_compute. reflexivity.
Defined.
